(** * Hill-climbing splits for railroad cuts

    A shallow embedding of [splitter.py] and [stock.py]: the two splitting
    algorithms ([fastsplit], [smartsplit]), the orchestrator
    [compute_split], the materialisation of a split into trips, and the
    force model of a [Train].

    Numbers.  The splitters only add numbers and compare them with [>]
    and [<=]; they are written once over the interface [Number] and run
    on exact integers ([Z], as in the scenarios of the specification) and
    on real numbers ([R], the idealisation of Python's floats used by the
    force model).  Rounding of floats is not modelled.

    Effects.  A Python call either returns a value or raises; [result]
    records which.  Python's [None] (the infeasible marker) is [None] of
    an [option].  Loops whose bound is not structural take fuel; the
    top-level functions supply enough of it, and [OutOfFuel] is proved
    unreachable for them. *)

From Stdlib Require Import String.
From Stdlib Require Import List ZArith Bool Lia Reals Lra Psatz.
Import ListNotations.

(** ** Results of Python calls *)

Inductive exn : Type :=
| AssertionError
| ValueError
| ZeroDivisionError.

Inductive result (A : Type) : Type :=
| Ok (a : A)
| Raise (e : exn)
| OutOfFuel.

Arguments Ok {A} a.
Arguments Raise {A} e.
Arguments OutOfFuel {A}.

Definition bind {A B : Type} (r : result A) (k : A -> result B) : result B :=
  match r with
  | Ok a => k a
  | Raise e => Raise e
  | OutOfFuel => OutOfFuel
  end.

Notation "x <- r ;; k" := (bind r (fun x => k))
  (at level 61, r at next level, right associativity).

(** [returns r]: the call came back with a value. *)
Definition returns {A : Type} (r : result A) : Prop := exists a, r = Ok a.

(** ** The numbers the splitters work on *)

Class Number (T : Type) : Type := {
  num_zero : T;                 (* the int 0 of [sum] and of the tests *)
  num_add : T -> T -> T;        (* a + b *)
  num_gt : T -> T -> bool;      (* a > b *)
  num_le : T -> T -> bool       (* a <= b *)
}.

(** [x > 0] and [x <= 0], as the source writes them. *)
Definition gt0 {T} `{Number T} (x : T) : bool := num_gt x num_zero.
Definition le0 {T} `{Number T} (x : T) : bool := num_le x num_zero.

(** The laws of an ordered commutative group, as far as the proofs use
    them.  Exact integers and real numbers satisfy them. *)
Class NumberLaws (T : Type) `{Number T} : Prop := {
  num_add_assoc : forall x y z : T, num_add x (num_add y z) = num_add (num_add x y) z;
  num_add_comm : forall x y : T, num_add x y = num_add y x;
  num_add_zero_l : forall x : T, num_add num_zero x = x;
  num_gt_trans : forall x y z : T,
      num_gt x y = true -> num_gt y z = true -> num_gt x z = true;
  num_gt_total : forall x y : T,
      num_gt x y = false -> x = y \/ num_gt y x = true;
  num_gt_irrefl : forall x : T, num_gt x x = false;
  num_gt_add_l : forall x y z : T,
      num_gt (num_add z x) (num_add z y) = num_gt x y;
  num_le_gt : forall x y : T, num_le x y = negb (num_gt x y)
}.

#[export] Instance Number_Z : Number Z := {
  num_zero := 0%Z;
  num_add := Z.add;
  num_gt := Z.gtb;
  num_le := Z.leb
}.

#[export] Instance Number_R : Number R := {
  num_zero := 0%R;
  num_add := Rplus;
  num_gt := fun x y => if Rlt_dec y x then true else false;
  num_le := fun x y => if Rle_dec x y then true else false
}.

(** ** splitter.py: the two splitters *)

Section Splitter.

Context {T : Type} `{Number T}.

(** [sum(xs)]: a left fold that starts from the int 0. *)
Definition py_sum (xs : list T) : T := fold_left num_add xs num_zero.

(** [capacity + sum(cut[:this_len]) > 0], the test both splitters make
    on a candidate subcut. *)
Definition pulls (capacity : T) (subcut : list T) : bool :=
  gt0 (num_add capacity (py_sum subcut)).

(** [sum(x for x in subcut if x>0)]. *)
Definition net_of (subcut : list T) : T := py_sum (filter gt0 subcut).

(** *** fastsplit *)

(** The [for this_len in range(len(cut), 0, -1)] loop: the first length,
    counting down from [this_len], whose prefix can be pulled; [None] is
    the [else] branch of the [for] (no [break]). *)
Fixpoint fastsplit_for (capacity : T) (cut : list T) (this_len : nat)
  : option nat :=
  match this_len with
  | O => None
  | S shorter =>
      if pulls capacity (firstn this_len cut) then Some this_len
      else fastsplit_for capacity cut shorter
  end.

(** The [while len(cut) > 0] loop on the state (capacity, cut, splits). *)
Fixpoint fastsplit_while (fuel : nat) (capacity : T) (cut : list T)
         (splits : list nat) (collect_net : bool)
  : result (option (list nat)) :=
  match cut with
  | [] => Ok (Some splits)
  | _ :: _ =>
      match fuel with
      | O => OutOfFuel
      | S fuel' =>
          match fastsplit_for capacity cut (length cut) with
          | Some this_len =>
              let capacity' :=
                if collect_net
                then num_add capacity (net_of (firstn this_len cut))
                else capacity in
              fastsplit_while fuel' capacity' (skipn this_len cut)
                              (splits ++ [this_len]) collect_net
          | None => Ok None
          end
      end
  end.

(** The loop run from a given state; every pass consumes at least one
    unit, so [len(cut)] passes are enough. *)
Definition fastsplit_loop (capacity : T) (cut : list T)
           (splits : list nat) (collect_net : bool)
  : result (option (list nat)) :=
  fastsplit_while (length cut) capacity cut splits collect_net.

Definition fastsplit (capacity : T) (cut : list T) (collect_net : bool)
  : result (option (list nat)) :=
  if gt0 capacity
  then fastsplit_loop capacity cut [] collect_net
  else Raise AssertionError.

(** *** smartsplit *)

(** The [for removed in reversed(this_cut)] loop: [this_len] after units
    have been taken off the tail up to and including the first one with
    a positive force. *)
Fixpoint smartsplit_for (reversed_cut : list T) (this_len : nat) : nat :=
  match reversed_cut with
  | [] => this_len
  | removed :: rest =>
      let this_len := pred this_len in
      if gt0 removed then this_len else smartsplit_for rest this_len
  end.

(** The [while this_len > 0] loop of the general case.  [self] is the
    recursive call [smartsplit(capacity, _, _)]. *)
Fixpoint smartsplit_while
         (self : list T -> Z -> result (option (list nat)))
         (fuel : nat) (capacity : T) (cut : list T) (this_len : nat)
         (best_split : option (list nat)) (best_split_len : Z)
  : result (option (list nat)) :=
  match this_len with
  | O => Ok best_split
  | S _ =>
      match fuel with
      | O => OutOfFuel
      | S fuel' =>
          let this_cut := firstn this_len cut in
          if pulls capacity this_cut then
            split <- self (skipn this_len cut) (best_split_len - 2)%Z ;;
            match split with
            | Some split =>
                let split := this_len :: split in
                let shrunk := smartsplit_for (rev this_cut) this_len in
                if (Z.of_nat (length split) <? best_split_len)%Z then
                  let best_split_len := Z.of_nat (length split) in
                  if (best_split_len =? 1)%Z then Ok (Some split)
                  else smartsplit_while self fuel' capacity cut shrunk
                                        (Some split) best_split_len
                else smartsplit_while self fuel' capacity cut shrunk
                                      best_split best_split_len
            | None =>
                smartsplit_while self fuel' capacity cut (pred this_len)
                                 best_split best_split_len
            end
          else
            smartsplit_while self fuel' capacity cut (pred this_len)
                             best_split best_split_len
      end
  end.

(** [smartsplit] with a bound on the depth of the recursion. *)
Fixpoint smartsplit_rec (depth : nat) (capacity : T) (cut : list T)
         (max_parts : Z) : result (option (list nat)) :=
  if gt0 capacity then
    match cut with
    | [] => Ok (Some [])
    | _ :: _ =>
        if (max_parts <=? 0)%Z then Ok None
        else if (max_parts =? 1)%Z then
          if pulls capacity cut then Ok (Some [length cut]) else Ok None
        else
          match depth with
          | O => OutOfFuel
          | S depth' =>
              smartsplit_while (smartsplit_rec depth' capacity)
                               (length cut) capacity cut (length cut)
                               None (max_parts + 1)%Z
          end
    end
  else Raise AssertionError.

Definition smartsplit (capacity : T) (cut : list T) (max_parts : Z)
  : result (option (list nat)) :=
  smartsplit_rec (length cut) capacity cut max_parts.

(** *** What a split must satisfy *)

(** A split of [cut]: positive lengths that add up to [len(cut)]. *)
Definition is_split (cut : list T) (split : list nat) : bool :=
  forallb (Nat.ltb 0) split && (list_sum split =? length cut)%nat.

(** Every subcut of the split can be pulled by the capacity available
    when its turn comes: the capacity grows by the positive forces of
    the subcuts already delivered when [collect_net] is set, and stays
    what it was otherwise. *)
Fixpoint subcuts_pull (collect_net : bool) (capacity : T) (cut : list T)
         (split : list nat) : bool :=
  match split with
  | [] => true
  | this_len :: rest =>
      pulls capacity (firstn this_len cut) &&
      subcuts_pull collect_net
        (if collect_net
         then num_add capacity (net_of (firstn this_len cut))
         else capacity)
        (skipn this_len cut) rest
  end.

Definition feasible (collect_net : bool) (capacity : T) (cut : list T)
           (split : list nat) : bool :=
  is_split cut split && subcuts_pull collect_net capacity cut split.

(** *** What the proofs show of the calls *)

(** What a call [smartsplit(capacity, cut, max_parts)] must come back
    with: a feasible split within [max_parts] that no feasible split
    undercuts, or [None] when every feasible split has more than
    [max_parts] parts. *)
Definition smartsplit_spec (capacity : T) (cut : list T) (max_parts : Z)
           (r : result (option (list nat))) : Prop :=
  match r with
  | Ok (Some split) =>
      feasible false capacity cut split = true /\
      (Z.of_nat (length split) <= Z.max max_parts 0)%Z /\
      forall other, feasible false capacity cut other = true ->
                    length split <= length other
  | Ok None =>
      forall other, feasible false capacity cut other = true ->
                    (max_parts < Z.of_nat (length other))%Z
  | Raise _ | OutOfFuel => False
  end.

(** The invariant of the [while] loop: [best_split] is feasible and has
    [best_split_len] parts (or nothing was found and [best_split_len] is
    still [max_parts+1]), and no feasible split whose first part is longer
    than [this_len] has fewer than [best_split_len] parts. *)
Definition while_inv (capacity : T) (cut : list T) (max_parts : Z)
           (this_len : nat) (best_split : option (list nat))
           (best_split_len : Z) : Prop :=
  (2 <= best_split_len)%Z /\
  match best_split with
  | None => best_split_len = (max_parts + 1)%Z
  | Some split =>
      feasible false capacity cut split = true /\
      Z.of_nat (length split) = best_split_len /\
      (best_split_len <= max_parts)%Z
  end /\
  forall first rest,
    this_len < first ->
    feasible false capacity cut (first :: rest) = true ->
    (best_split_len <= Z.of_nat (length (first :: rest)))%Z.

(** A result is sound when the split it carries, if any, is feasible. *)
Definition sound_result (capacity : T) (cut : list T)
           (r : result (option (list nat))) : Prop :=
  forall split, r = Ok (Some split) ->
                feasible false capacity cut split = true.

End Splitter.

(** ** stock.py: rolling stock and trains *)

Local Open Scope R_scope.

(** The three kinds of rolling stock: [Car], [TractiveCar] and [CarGroup],
    the last owning the train it stands for. *)
#[warnings="-register-all"] Inductive RollingStock : Type :=
| Car (name : string) (mass : R)
| TractiveCar (name : string) (mass : R) (tractive_effort : R)
| CarGroup (name : string) (train : list RollingStock).

(** A [Train] is the tuple [_elems] of its rolling stock, in order. *)
Definition Train : Type := list RollingStock.

(** [RollingStock.mass] and [RollingStock.tractive_effort]; a group
    answers with the sums over its train. *)
Fixpoint stock_mass (x : RollingStock) : R :=
  match x with
  | Car _ mass => mass
  | TractiveCar _ mass _ => mass
  | CarGroup _ train => py_sum (map stock_mass train)
  end.

Fixpoint stock_tractive_effort (x : RollingStock) : R :=
  match x with
  | Car _ _ => 0
  | TractiveCar _ _ tractive_effort => tractive_effort
  | CarGroup _ train => py_sum (map stock_tractive_effort train)
  end.

(** [Train.mass] and [Train.tractive_effort]. *)
Definition train_mass (t : Train) : R := py_sum (map stock_mass t).
Definition train_tractive_effort (t : Train) : R :=
  py_sum (map stock_tractive_effort t).

(** Modelled from the spec: the interface [Calculative] that splitter.py
    imports from the stock module, which stock.py does not define.  The
    specification asks of every entity, a single piece of rolling stock
    or a train, a mass, a tractive effort and a starting force derived
    from them on a grade; the entities stock.py has are the two below. *)
Inductive Calculative : Type :=
| Stock (x : RollingStock)
| Consist (t : Train).

Definition mass (x : Calculative) : R :=
  match x with
  | Stock x => stock_mass x
  | Consist t => train_mass t
  end.

Definition tractive_effort (x : Calculative) : R :=
  match x with
  | Stock x => stock_tractive_effort x
  | Consist t => train_tractive_effort t
  end.

(** [Train(x)]: [Train.__init__] wraps a single piece of rolling stock
    into a one-element tuple and copies the elements of a train. *)
Definition as_train (x : Calculative) : Train :=
  match x with
  | Stock x => [x]
  | Consist t => t
  end.

(** [x + other] with [other] a train: [RollingStock.__add__] gives
    [Train((self,) + tuple(other))] and [Train.__add__] gives
    [Train(self._elems + tuple(other))]. *)
Definition attach (x : Calculative) (other : Train) : Train :=
  as_train x ++ other.

(** *** Python arithmetic that can raise *)

(** [x / y] raises [ZeroDivisionError] when [y] is zero. *)
Definition py_truediv (x y : R) : result R :=
  if Req_dec_T y 0 then Raise ZeroDivisionError else Ok (x / y).

(** [math.sqrt(x)] raises [ValueError] when [x] is negative. *)
Definition math_sqrt (x : R) : result R :=
  if Rlt_dec x 0 then Raise ValueError else Ok (sqrt x).

(** The coefficient of friction, 0.004. *)
Definition mu : R := 4 / 1000.

(** *** The force model *)

Section ForceModel.

Variable x : Calculative.

(** [self.mass * (grade + 0.004) / math.sqrt(grade * grade + 1)] *)
Definition starting_force (grade : R) : result R :=
  root <- math_sqrt (grade * grade + 1) ;;
  py_truediv (mass x * (grade + mu)) root.

(** [self.starting_force(grade) / self.tractive_effort] *)
Definition starting_power (grade : R) : result R :=
  force <- starting_force grade ;;
  py_truediv force (tractive_effort x).

(** [self.tractive_effort * math.sqrt(grade * grade + 1) / (grade + 0.004)
    - self.mass] *)
Definition spare_capacity (grade : R) : result R :=
  root <- math_sqrt (grade * grade + 1) ;;
  room <- py_truediv (tractive_effort x * root) (grade + mu) ;;
  Ok (room - mass x).

(** [(M**2 * 0.004 - F * math.sqrt(M**2 * (0.004**2 + 1) - F**2))
    / (F**2 - M**2)] *)
Definition maximum_grade : result R :=
  let F := tractive_effort x in
  let M := mass x in
  root <- math_sqrt (M ^ 2 * (mu ^ 2 + 1) - F ^ 2) ;;
  py_truediv (M ^ 2 * mu - F * root) (F ^ 2 - M ^ 2).

(** [x.tractive_effort * max_power - x.starting_force(grade)] *)
Definition net_force_capacity (grade max_power : R) : result R :=
  force <- starting_force grade ;;
  Ok (tractive_effort x * max_power - force).

End ForceModel.

(** The values the force model returns when it returns: the starting
    force of [x] on a grade and its net force capacity. *)
Definition force_on_grade (x : Calculative) (grade : R) : R :=
  mass x * (grade + mu) / sqrt (grade * grade + 1).

Definition net_capacity (x : Calculative) (grade max_power : R) : R :=
  tractive_effort x * max_power - force_on_grade x grade.

(** ** splitter.py: the orchestrator *)

(** [max(c)] of a tuple: [ValueError] on the empty one, otherwise the
    first of the largest elements. *)
Definition py_max {T : Type} `{Number T} (xs : list T) : result T :=
  match xs with
  | [] => Raise ValueError
  | x :: rest =>
      Ok (fold_left (fun best y => if num_gt y best then y else best) rest x)
  end.

(** [tuple(map(f, xs))] for an [f] that can raise. *)
Fixpoint map_result {X Y : Type} (f : X -> result Y) (xs : list X)
  : result (list Y) :=
  match xs with
  | [] => Ok []
  | x :: rest =>
      y <- f x ;;
      ys <- map_result f rest ;;
      Ok (y :: ys)
  end.

Definition compute_split (power : Calculative) (cut : Train)
           (grade max_power : R) (collect_net : bool)
  : result (option (list nat)) :=
  let f := fun x => net_force_capacity x grade max_power in
  p <- f power ;;
  c <- map_result (fun unit => f (Stock unit)) cut ;;
  largest <- py_max c ;;
  if le0 largest || collect_net
  then fastsplit p c true
  else smartsplit p c (Z.of_nat (length cut)).

(** The choice [compute_split] makes between the splitters, on the
    capacity and the forces. *)
Definition dispatch (p : R) (c : list R) (collect_net : bool)
  : result (option (list nat)) :=
  if forallb le0 c || collect_net
  then fastsplit p c true
  else smartsplit p c (Z.of_nat (length c)).

(** ** splitter.py: from a split to trips *)

(** [map(f, xs, ys)]: stops with the shorter of the two. *)
Fixpoint map2 {X Y W : Type} (f : X -> Y -> W) (xs : list X) (ys : list Y)
  : list W :=
  match xs, ys with
  | x :: xs', y :: ys' => f x y :: map2 f xs' ys'
  | _, _ => []
  end.

(** [itertools.accumulate]: the running totals after [total]. *)
Fixpoint accumulate_from {X Y : Type} (f : X -> Y -> X) (total : X)
         (xs : list Y) : list X :=
  match xs with
  | [] => []
  | x :: rest => let total := f total x in total :: accumulate_from f total rest
  end.

(** [itertools.accumulate(xs)] and [itertools.accumulate(xs, initial=i)]. *)
Definition accumulate {X : Type} (f : X -> X -> X) (xs : list X) : list X :=
  match xs with
  | [] => []
  | x :: rest => x :: accumulate_from f x rest
  end.

Definition accumulate_initial {X Y : Type} (f : X -> Y -> X) (initial : X)
           (xs : list Y) : list X :=
  initial :: accumulate_from f initial xs.

(** [xs[start:stop]] for indices that are not negative. *)
Definition getslice {X : Type} (xs : list X) (slice : nat * nat) : list X :=
  skipn (fst slice) (firstn (snd slice) xs).

Definition split_to_slices (split : list nat) : list (nat * nat) :=
  let e := accumulate Nat.add split in
  let s := map2 Nat.sub e split in
  map2 pair s e.

Definition split_to_subcuts (cut : Train) (split : list nat) : list Train :=
  map (getslice cut) (split_to_slices split).

Section Trips.

(** Modelled from the spec: the method [Train.tractive_units], which
    [split_to_trips] calls on every subcut and stock.py does not define.
    The specification has each later trip's power be the original power
    plus the subcuts already delivered, with their tractive effort and
    their mass; which units of a subcut the method returns it does not
    say, so the method is a parameter here and that property of it is an
    explicit assumption where it is used. *)
Variable tractive_units : Train -> Train.

(** The power of the successive trips is kept as a train: the first one
    is [Train(power)], which gives the same trip as [power] itself since
    [power + subcut] is [Train(power) + subcut].  An endless
    [itertools.repeat(power)] is cut to the number of subcuts, which is
    all [map] draws from it. *)
Definition split_to_trips (power : Calculative) (cut : Train)
           (split : list nat) (collect_tractive : bool) : list Train :=
  let sc := split_to_subcuts cut split in
  let pw :=
    if collect_tractive
    then accumulate_initial (@app RollingStock) (as_train power)
                            (map tractive_units sc)
    else repeat (as_train power) (length sc) in
  map2 (@app RollingStock) pw sc.

(** The trips with collection, by a single pass that carries the power
    accumulated so far. *)
Fixpoint trips_from (power : Train) (subcuts : list Train) : list Train :=
  match subcuts with
  | [] => []
  | subcut :: rest =>
      (power ++ subcut) :: trips_from (power ++ tractive_units subcut) rest
  end.

End Trips.

(** ** stock.py: coupling, repeating and flattening trains *)

(** [self + other], for [self] and [other] a piece of rolling stock or a
    train: [RollingStock.__add__] builds [Train((self, other))] or
    [Train((self,) + tuple(other))], [Train.__add__] builds
    [Train(self._elems + (other,))] or [Train(self._elems + tuple(other))]. *)
Definition py_add (self other : Calculative) : Train :=
  match self, other with
  | Stock x, Stock y => [x; y]
  | Stock x, Consist t => [x] ++ t
  | Consist s, Stock y => s ++ [y]
  | Consist s, Consist t => s ++ t
  end.

(** [tuple * n]: [n] copies one after the other, none when [n <= 0]. *)
Definition tuple_mul {X : Type} (xs : list X) (n : Z) : list X :=
  concat (repeat xs (Z.to_nat n)).

(** [self * n]: [RollingStock.__mul__] builds [Train((self,) * n)] and
    [Train.__mul__] builds [Train(self._elems * n)]. *)
Definition py_mul (self : Calculative) (n : Z) : Train :=
  match self with
  | Stock x => tuple_mul [x] n
  | Consist t => tuple_mul t n
  end.

(** [Train.flat_iter]: the members in order, a [CarGroup] replaced by the
    members of its train (one level down). *)
Definition flat_iter (t : Train) : list RollingStock :=
  flat_map (fun x => match x with
                     | CarGroup _ train => train
                     | _ => [x]
                     end) t.

Local Close Scope R_scope.

(** * Properties *)

Example fastsplit_scenario_1 :
  fastsplit 10%Z [-3; -3; -3; -3]%Z false = Ok (Some [3; 1]).
Proof. reflexivity. Qed.

Example smartsplit_scenario_1 :
  smartsplit 10%Z [-3; -3; -3; -3]%Z 4 = Ok (Some [3; 1]).
Proof. reflexivity. Qed.

Example smartsplit_beats_fastsplit :
  fastsplit 10%Z [-9; 10; -19]%Z false = Ok None /\
  smartsplit 10%Z [-9; 10; -19]%Z 3 = Ok (Some [1; 2]).
Proof. split; reflexivity. Qed.

Example feasible_scenario_1 :
  feasible false 10%Z [-3; -3; -3; -3]%Z [3; 1] = true /\
  feasible false 10%Z [-3; -3; -3; -3]%Z [4] = false /\
  feasible true 5%Z [5; -3; -3; -7]%Z [3; 1] = true /\
  feasible false 5%Z [5; -3; -3; -7]%Z [3; 1] = false.
Proof. repeat split. Qed.


(** ** The two instances obey the laws *)

#[export] Instance NumberLaws_Z : NumberLaws Z.
Proof.
  split; cbn; intros.
  - lia.
  - lia.
  - lia.
  - lia.
  - destruct (Z.eq_dec x y); [now left | right]. lia.
  - lia.
  - rewrite !Z.gtb_ltb. destruct (Z.ltb_spec y x), (Z.ltb_spec (z + y) (z + x)); lia.
  - rewrite Z.gtb_ltb. destruct (Z.ltb_spec y x), (Z.leb_spec x y); simpl; lia.
Qed.

Lemma gt_R_true (x y : R) : num_gt x y = true <-> (y < x)%R.
Proof. cbn. destruct (Rlt_dec y x); split; intros; (lra || congruence). Qed.

Lemma gt_R_false (x y : R) : num_gt x y = false <-> (x <= y)%R.
Proof. cbn. destruct (Rlt_dec y x); split; intros; (lra || congruence). Qed.

Lemma le_R_true (x y : R) : num_le x y = true <-> (x <= y)%R.
Proof. cbn. destruct (Rle_dec x y); split; intros; (lra || congruence). Qed.

#[export] Instance NumberLaws_R : NumberLaws R.
Proof.
  split; intros.
  - cbn. lra.
  - cbn. lra.
  - cbn. lra.
  - rewrite gt_R_true in *. lra.
  - rewrite gt_R_false in *. rewrite gt_R_true.
    destruct (Req_dec x y); [now left | right]. lra.
  - rewrite gt_R_false. lra.
  - cbn. destruct (Rlt_dec (z + y) (z + x)), (Rlt_dec y x); (reflexivity || lra).
  - cbn. destruct (Rle_dec x y), (Rlt_dec y x); simpl; (reflexivity || lra).
Qed.

(** ** Facts about splits *)

Section SplitFacts.

Context {T : Type} `{Number T}.

Lemma is_split_nil (cut : list T) :
  is_split cut [] = true <-> cut = [].
Proof.
  unfold is_split; simpl. destruct cut; simpl; split; congruence.
Qed.

Lemma is_split_cons (cut : list T) (this_len : nat) (rest : list nat) :
  is_split cut (this_len :: rest) = true <->
  0 < this_len <= length cut /\ is_split (skipn this_len cut) rest = true.
Proof.
  unfold is_split; simpl.
  rewrite !andb_true_iff, !Nat.eqb_eq, Nat.ltb_lt, length_skipn.
  split; intros; intuition lia.
Qed.

Lemma is_split_length (cut : list T) (split : list nat) :
  is_split cut split = true -> length split <= length cut.
Proof.
  revert cut; induction split as [|l rest IH]; intros cut Hs.
  - simpl; lia.
  - apply is_split_cons in Hs as [Hl Hr].
    apply IH in Hr. rewrite length_skipn in Hr. simpl; lia.
Qed.

Lemma is_split_sum (cut : list T) (split : list nat) :
  is_split cut split = true ->
  Forall (fun l => 0 < l) split /\ list_sum split = length cut.
Proof.
  unfold is_split. rewrite andb_true_iff, Nat.eqb_eq, forallb_forall.
  intros [Hp Hs]; split; [|exact Hs].
  apply Forall_forall; intros l Hl. apply Nat.ltb_lt, Hp, Hl.
Qed.

Lemma feasible_cons (collect_net : bool) (capacity : T) (cut : list T)
      (this_len : nat) (rest : list nat) :
  feasible collect_net capacity cut (this_len :: rest) = true <->
  0 < this_len <= length cut /\
  pulls capacity (firstn this_len cut) = true /\
  feasible collect_net
    (if collect_net then num_add capacity (net_of (firstn this_len cut))
     else capacity)
    (skipn this_len cut) rest = true.
Proof.
  unfold feasible; simpl subcuts_pull.
  rewrite !andb_true_iff, is_split_cons. tauto.
Qed.

Lemma feasible_nil (collect_net : bool) (capacity : T) (cut : list T) :
  feasible collect_net capacity cut [] = true <-> cut = [].
Proof.
  unfold feasible; simpl. rewrite andb_true_r. apply is_split_nil.
Qed.

Lemma feasible_nonempty (capacity : T) (cut : list T) (split : list nat) :
  cut <> [] -> feasible false capacity cut split = true ->
  1 <= length split.
Proof.
  intros Hne Hf. destruct split; [|simpl; lia].
  apply feasible_nil in Hf. contradiction.
Qed.

Lemma feasible_whole (capacity : T) (cut : list T) :
  cut <> [] ->
  feasible false capacity cut [length cut] = pulls capacity cut.
Proof.
  intros Hne. unfold feasible, is_split.
  cbn [forallb list_sum fold_right subcuts_pull].
  rewrite firstn_all, Nat.add_0_r, Nat.eqb_refl, !andb_true_r.
  destruct cut; [contradiction|]. reflexivity.
Qed.

Lemma feasible_single (capacity : T) (cut : list T) (this_len : nat) :
  feasible false capacity cut [this_len] = true ->
  pulls capacity cut = true.
Proof.
  intros Hf. apply feasible_cons in Hf as (Hl & Hp & Hrest).
  apply feasible_nil in Hrest.
  assert (length (skipn this_len cut) = 0) as Hz by now rewrite Hrest.
  rewrite length_skipn in Hz.
  replace this_len with (length cut) in Hp by lia.
  now rewrite firstn_all in Hp.
Qed.

End SplitFacts.

(** ** Facts about fastsplit *)

Section FastsplitFacts.

Context {T : Type} `{Number T}.

Lemma fastsplit_for_some (capacity : T) (cut : list T) (n this_len : nat) :
  fastsplit_for capacity cut n = Some this_len ->
  1 <= this_len <= n /\
  pulls capacity (firstn this_len cut) = true /\
  forall longer, this_len < longer <= n ->
                 pulls capacity (firstn longer cut) = false.
Proof.
  induction n as [|n IH]; cbn [fastsplit_for]; [discriminate|].
  destruct (pulls capacity (firstn (S n) cut)) eqn:E.
  - intros [= <-]. repeat split; try lia. exact E.
  - intros Hf. destruct (IH Hf) as (Hr & Hp & Hl).
    repeat split; try lia; [exact Hp|].
    intros longer Hlo. destruct (Nat.eq_dec longer (S n)) as [->|Hne].
    + exact E.
    + apply Hl; lia.
Qed.

Lemma fastsplit_for_none (capacity : T) (cut : list T) (n : nat) :
  fastsplit_for capacity cut n = None <->
  forall this_len, 1 <= this_len <= n ->
                   pulls capacity (firstn this_len cut) = false.
Proof.
  induction n as [|n IH]; cbn [fastsplit_for].
  - split; [intros _ l Hl; lia | reflexivity].
  - destruct (pulls capacity (firstn (S n) cut)) eqn:E.
    + split; [discriminate|]. intros Hall.
      specialize (Hall (S n) ltac:(lia)). congruence.
    + rewrite IH. split; intros Hall l Hl.
      * destruct (Nat.eq_dec l (S n)) as [->|Hne]; [exact E|].
        apply Hall; lia.
      * apply Hall; lia.
Qed.

Lemma fastsplit_for_longest (capacity : T) (cut : list T) (n this_len : nat) :
  1 <= this_len <= n ->
  pulls capacity (firstn this_len cut) = true ->
  (forall longer, this_len < longer <= n ->
                  pulls capacity (firstn longer cut) = false) ->
  fastsplit_for capacity cut n = Some this_len.
Proof.
  intros Hr Hp Hl.
  destruct (fastsplit_for capacity cut n) as [found|] eqn:E.
  - apply fastsplit_for_some in E as (Hr' & Hp' & Hl').
    destruct (Nat.lt_trichotomy found this_len) as [Hlt|[->|Hgt]].
    + rewrite Hl' in Hp by lia. discriminate.
    + reflexivity.
    + rewrite Hl in Hp' by lia. discriminate.
  - rewrite fastsplit_for_none in E. rewrite E in Hp by lia. discriminate.
Qed.

(** Fuel beyond [len(cut)] changes nothing. *)
Lemma fastsplit_while_fuel (fuel1 fuel2 : nat) (capacity : T)
      (cut : list T) (splits : list nat) (collect_net : bool) :
  length cut <= fuel1 -> length cut <= fuel2 ->
  fastsplit_while fuel1 capacity cut splits collect_net =
  fastsplit_while fuel2 capacity cut splits collect_net.
Proof.
  revert fuel2 capacity cut splits.
  induction fuel1 as [|fuel1 IH]; intros fuel2 capacity cut splits H1 H2.
  - destruct cut; [|simpl in H1; lia]. destruct fuel2; reflexivity.
  - destruct cut as [|x cut]; [destruct fuel2; reflexivity|].
    destruct fuel2 as [|fuel2]; [simpl in H2; lia|].
    cbn [fastsplit_while].
    destruct (fastsplit_for capacity (x :: cut) (length (x :: cut)))
      as [this_len|] eqn:E; [|reflexivity].
    apply fastsplit_for_some in E as (Hr & _ & _).
    apply IH; rewrite length_skipn; cbn [length] in *; lia.
Qed.

(** One pass of the loop. *)
Lemma fastsplit_loop_unfold (capacity : T) (cut : list T)
      (splits : list nat) (collect_net : bool) :
  fastsplit_loop capacity cut splits collect_net =
  match cut with
  | [] => Ok (Some splits)
  | _ :: _ =>
      match fastsplit_for capacity cut (length cut) with
      | Some this_len =>
          fastsplit_loop
            (if collect_net
             then num_add capacity (net_of (firstn this_len cut))
             else capacity)
            (skipn this_len cut) (splits ++ [this_len]) collect_net
      | None => Ok None
      end
  end.
Proof.
  unfold fastsplit_loop. destruct cut as [|x cut]; [reflexivity|].
  cbn [length fastsplit_while].
  destruct (fastsplit_for capacity (x :: cut) (S (length cut)))
    as [this_len|] eqn:E; [|reflexivity].
  apply fastsplit_for_some in E as (Hr & _ & _).
  apply fastsplit_while_fuel; rewrite length_skipn; cbn [length]; lia.
Qed.

(** The loop returns: it never runs out of fuel and never raises. *)
Lemma fastsplit_loop_returns (capacity : T) (cut : list T)
      (splits : list nat) (collect_net : bool) :
  returns (fastsplit_loop capacity cut splits collect_net).
Proof.
  remember (length cut) as n eqn:Hn.
  revert capacity cut splits Hn.
  induction n as [n IH] using lt_wf_ind; intros capacity cut splits Hn.
  rewrite fastsplit_loop_unfold. destruct cut as [|x cut]; [eexists; reflexivity|].
  destruct (fastsplit_for capacity (x :: cut) (length (x :: cut)))
    as [this_len|] eqn:E; [|eexists; reflexivity].
  apply fastsplit_for_some in E as (Hr & _ & _).
  assert (Hlt : length (skipn this_len (x :: cut)) < n)
    by (rewrite length_skipn; cbn [length] in *; lia).
  exact (IH _ Hlt _ _ _ eq_refl).
Qed.

(** What the loop returns extends [splits] by a feasible split of what
    was left of the cut. *)
Lemma fastsplit_loop_sound (capacity : T) (cut : list T)
      (splits : list nat) (collect_net : bool) (split : list nat) :
  fastsplit_loop capacity cut splits collect_net = Ok (Some split) ->
  exists rest, split = splits ++ rest /\
               feasible collect_net capacity cut rest = true.
Proof.
  remember (length cut) as n eqn:Hn.
  revert capacity cut splits Hn.
  induction n as [n IH] using lt_wf_ind; intros capacity cut splits Hn.
  rewrite fastsplit_loop_unfold. destruct cut as [|x cut].
  - intros [= <-]. exists []. rewrite app_nil_r. split; [reflexivity|].
    now apply feasible_nil.
  - destruct (fastsplit_for capacity (x :: cut) (length (x :: cut)))
      as [this_len|] eqn:E; [|discriminate].
    apply fastsplit_for_some in E as (Hr & Hp & _).
    intros Hloop.
    assert (Hlt : length (skipn this_len (x :: cut)) < n)
      by (rewrite length_skipn; cbn [length] in *; lia).
    destruct (IH _ Hlt _ _ _ eq_refl Hloop) as (rest & -> & Hfeas).
    exists (this_len :: rest). rewrite <- app_assoc. split; [reflexivity|].
    apply feasible_cons. repeat split; try lia; assumption.
Qed.

End FastsplitFacts.

(** ** Arithmetic the optimality argument rests on *)

Section NumberFacts.

Context {T : Type} `{NumberLaws T}.

Lemma num_add_zero_r (x : T) : num_add x num_zero = x.
Proof. rewrite num_add_comm. apply num_add_zero_l. Qed.

Lemma fold_left_num_add (xs : list T) (acc : T) :
  fold_left num_add xs acc = num_add acc (py_sum xs).
Proof.
  unfold py_sum. revert acc.
  induction xs as [|x xs IH]; intros acc; simpl.
  - now rewrite num_add_zero_r.
  - rewrite IH, (IH (num_add num_zero x)), num_add_zero_l.
    now rewrite num_add_assoc.
Qed.

Lemma py_sum_cons (x : T) (xs : list T) :
  py_sum (x :: xs) = num_add x (py_sum xs).
Proof.
  unfold py_sum at 1; simpl.
  now rewrite fold_left_num_add, num_add_zero_l.
Qed.

Lemma py_sum_app (xs ys : list T) :
  py_sum (xs ++ ys) = num_add (py_sum xs) (py_sum ys).
Proof.
  unfold py_sum at 1. rewrite fold_left_app.
  fold (py_sum xs). apply fold_left_num_add.
Qed.

Lemma gt0_zero : gt0 (num_zero : T) = false.
Proof. apply num_gt_irrefl. Qed.

(** Two forces that are not positive do not add up to a positive one. *)
Lemma gt0_add_false (a b : T) :
  gt0 a = false -> gt0 b = false -> gt0 (num_add a b) = false.
Proof.
  unfold gt0; intros Ha Hb.
  destruct (num_gt (num_add a b) num_zero) eqn:E; [|reflexivity].
  assert (Hab : num_gt (num_add a b) a = false).
  { rewrite <- (num_add_zero_r a) at 2. now rewrite num_gt_add_l. }
  destruct (num_gt_total _ _ Hab) as [Heq|Hlt].
  - rewrite Heq in E. congruence.
  - rewrite (num_gt_trans _ _ _ Hlt E) in Ha. discriminate.
Qed.

Lemma py_sum_not_positive (xs : list T) :
  Forall (fun x => gt0 x = false) xs -> gt0 (py_sum xs) = false.
Proof.
  induction 1 as [|x xs Hx _ IH].
  - apply gt0_zero.
  - rewrite py_sum_cons. now apply gt0_add_false.
Qed.

(** Units that supply no force only weigh a subcut down: taking them
    off the front of a subcut that can be pulled leaves one that can. *)
Lemma pulls_drop_front (capacity : T) (dropped subcut : list T) :
  Forall (fun x => gt0 x = false) dropped ->
  pulls capacity (dropped ++ subcut) = true ->
  pulls capacity subcut = true.
Proof.
  unfold pulls; intros Hd Hp.
  destruct (gt0 (num_add capacity (py_sum subcut))) eqn:E; [reflexivity|].
  rewrite py_sum_app in Hp.
  rewrite (num_add_comm (py_sum dropped)), num_add_assoc, num_add_comm in Hp.
  rewrite gt0_add_false in Hp; auto using py_sum_not_positive.
Qed.

Lemma le0_not_gt0 (x : T) : le0 x = negb (gt0 x).
Proof. apply num_le_gt. Qed.

End NumberFacts.

(** ** Facts about smartsplit *)

Section SmartsplitFacts.

Context {T : Type} `{NumberLaws T}.

Lemma Forall_firstn_keeps (P : T -> Prop) (n : nat) (xs : list T) :
  Forall P xs -> Forall P (firstn n xs).
Proof.
  intros Hall; revert n; induction Hall; intros [|n]; simpl; auto.
Qed.

Lemma Forall_skipn_keeps (P : T -> Prop) (n : nat) (xs : list T) :
  Forall P xs -> Forall P (skipn n xs).
Proof.
  intros Hall; revert n; induction Hall; intros [|n]; simpl; auto.
Qed.

(** The [for removed in reversed(this_cut)] loop, seen on the reversed
    subcut: it stops below where it started, and every unit it passed
    without stopping supplies no force. *)
Lemma smartsplit_for_reversed (reversed_cut : list T) :
  let shrunk := smartsplit_for reversed_cut (length reversed_cut) in
  shrunk <= length reversed_cut - 1 /\
  Forall (fun x : T => gt0 x = false) (firstn (length reversed_cut - 1 - shrunk) reversed_cut).
Proof.
  induction reversed_cut as [|removed rest IH]; cbn [smartsplit_for length].
  - split; [lia | constructor].
  - cbn [pred]. destruct (gt0 removed) eqn:E.
    + split; [lia|]. replace (S (length rest) - 1 - length rest) with 0 by lia.
      constructor.
    + cbn zeta in IH. destruct IH as [Hle Hall].
      split; [lia|]. destruct rest as [|r rest'].
      * simpl. constructor.
      * cbn [length] in *.
        set (m := smartsplit_for (r :: rest') (S (length rest'))) in *.
        replace (S (S (length rest')) - 1 - m)
          with (S (S (length rest') - 1 - m)) by lia.
        cbn [firstn]. constructor; assumption.
Qed.

Lemma smartsplit_for_lt (this_cut : list T) :
  this_cut <> [] ->
  smartsplit_for (rev this_cut) (length this_cut) < length this_cut.
Proof.
  intros Hne. pose proof (smartsplit_for_reversed (rev this_cut)) as [Hle _].
  rewrite length_rev in Hle.
  destruct this_cut; [congruence|]. cbn [length] in *. lia.
Qed.

(** Seen on the subcut itself: everything after a length that the loop
    skipped supplies no force. *)
Lemma smartsplit_for_skipped (this_cut : list T) (skipped : nat) :
  smartsplit_for (rev this_cut) (length this_cut) < skipped ->
  Forall (fun x : T => gt0 x = false) (skipn skipped this_cut).
Proof.
  intros Hlt.
  pose proof (smartsplit_for_reversed (rev this_cut)) as [_ Hall].
  rewrite length_rev in Hall.
  rewrite <- (rev_involutive this_cut) at 1.
  rewrite skipn_rev, length_rev. apply Forall_rev.
  set (m := smartsplit_for (rev this_cut) (length this_cut)) in *.
  replace (length this_cut - skipped)
    with (Nat.min (length this_cut - skipped) (length this_cut - 1 - m)) by lia.
  rewrite <- firstn_firstn. now apply Forall_firstn_keeps.
Qed.

(** A feasible split of a cut that starts with units supplying no force
    gives a feasible split, with no more parts, of the cut without
    them. *)
Lemma feasible_drop_front (capacity : T) (dropped cut : list T)
      (split : list nat) :
  Forall (fun x : T => gt0 x = false) dropped ->
  feasible false capacity (dropped ++ cut) split = true ->
  exists split', feasible false capacity cut split' = true /\
                 length split' <= length split.
Proof.
  revert dropped; induction split as [|l rest IH]; intros dropped Hd Hf.
  - apply feasible_nil in Hf. apply app_eq_nil in Hf as [_ ->].
    exists []. split; [now apply feasible_nil | lia].
  - apply feasible_cons in Hf as (Hl & Hp & Hrest).
    rewrite length_app in Hl.
    destruct (Nat.le_gt_cases l (length dropped)) as [Hle|Hgt].
    + rewrite skipn_app in Hrest.
      replace (l - length dropped) with 0 in Hrest by lia.
      cbn [skipn] in Hrest.
      apply IH in Hrest as (split' & Hf' & Hlen);
        [|now apply Forall_skipn_keeps].
      exists split'. split; [exact Hf' | simpl; lia].
    + rewrite firstn_app, firstn_all2 in Hp by lia.
      apply pulls_drop_front in Hp; [|exact Hd].
      rewrite skipn_app, skipn_all2 in Hrest by lia.
      cbn [app] in Hrest.
      exists ((l - length dropped) :: rest). split; [|simpl; lia].
      apply feasible_cons. repeat split; try lia; assumption.
Qed.

End SmartsplitFacts.

(** ** smartsplit finds a split with the fewest parts *)

Section SmartsplitOptimal.

Context {T : Type} `{NumberLaws T}.

Lemma skipn_split_at (first this_len : nat) (cut : list T) :
  first <= this_len ->
  skipn first cut =
  skipn first (firstn this_len cut) ++ skipn this_len cut.
Proof.
  intros Hle. rewrite <- (firstn_skipn this_len cut) at 1.
  rewrite skipn_app, length_firstn.
  destruct (Nat.le_gt_cases this_len (length cut)) as [Hc|Hc].
  - rewrite Nat.min_l by lia. replace (first - this_len) with 0 by lia.
    reflexivity.
  - rewrite Nat.min_r by lia.
    rewrite (skipn_all2 (n := this_len)) by lia.
    rewrite skipn_nil. reflexivity.
Qed.

Lemma smartsplit_while_spec
      (self : list T -> Z -> result (option (list nat)))
      (capacity : T) (cut : list T) (max_parts : Z) :
  cut <> [] -> (2 <= max_parts)%Z ->
  (forall this_len budget,
      0 < this_len <= length cut ->
      smartsplit_spec capacity (skipn this_len cut) budget
                      (self (skipn this_len cut) budget)) ->
  forall fuel this_len best_split best_split_len,
    this_len <= fuel -> this_len <= length cut ->
    while_inv capacity cut max_parts this_len best_split best_split_len ->
    smartsplit_spec capacity cut max_parts
      (smartsplit_while self fuel capacity cut this_len
                        best_split best_split_len).
Proof.
  intros Hne Hmp Hself fuel.
  induction fuel as [|fuel IH];
    intros this_len best_split best_split_len Hfuel Hlen (Hb2 & Hbest & Hseen).
  - (* the loop is over *)
    assert (this_len = 0) as -> by lia. cbn [smartsplit_while].
    destruct best_split as [split|]; cbn [smartsplit_spec].
    + destruct Hbest as (Hf & Hl & Hle). repeat split; [exact Hf|lia|].
      intros [|first rest] Ho.
      * apply feasible_nil in Ho. contradiction.
      * apply feasible_cons in Ho as Ho'. specialize (Hseen first rest).
        apply Nat2Z.inj_le. rewrite Hl. apply Hseen; [lia|exact Ho].
    + intros [|first rest] Ho.
      * apply feasible_nil in Ho. contradiction.
      * apply feasible_cons in Ho as Ho'. specialize (Hseen first rest).
        subst best_split_len.
        enough (max_parts + 1 <= Z.of_nat (length (first :: rest)))%Z by lia.
        apply Hseen; [lia|exact Ho].
  - destruct this_len as [|k].
    + (* the loop is over *)
      cbn [smartsplit_while].
      destruct best_split as [split|]; cbn [smartsplit_spec].
      * destruct Hbest as (Hf & Hl & Hle). repeat split; [exact Hf|lia|].
        intros [|first rest] Ho.
        -- apply feasible_nil in Ho. contradiction.
        -- apply feasible_cons in Ho as Ho'. specialize (Hseen first rest).
           apply Nat2Z.inj_le. rewrite Hl. apply Hseen; [lia|exact Ho].
      * intros [|first rest] Ho.
        -- apply feasible_nil in Ho. contradiction.
        -- apply feasible_cons in Ho as Ho'. specialize (Hseen first rest).
           subst best_split_len.
           enough (max_parts + 1 <= Z.of_nat (length (first :: rest)))%Z by lia.
           apply Hseen; [lia|exact Ho].
    + cbn [smartsplit_while]. cbv zeta.
      destruct (pulls capacity (firstn (S k) cut)) eqn:Hpull.
      * (* the subcut is valid *)
        pose proof (Hself (S k) (best_split_len - 2)%Z ltac:(lia)) as Hrec.
        destruct (self (skipn (S k) cut) (best_split_len - 2)%Z)
          as [[split|]| |]; cbn [smartsplit_spec bind] in *;
          try contradiction.
        -- (* the rest can be split within the budget *)
           destruct Hrec as (Hf & Hl & Hmin).
           assert (Hfs : feasible false capacity cut (S k :: split) = true).
           { apply feasible_cons. repeat split; try lia; assumption. }
           assert (Hlt : (Z.of_nat (length (S k :: split)) < best_split_len)%Z).
           { cbn [length]. lia. }
           apply Z.ltb_lt in Hlt as Hltb. rewrite Hltb.
           destruct (Z.of_nat (length (S k :: split)) =? 1)%Z eqn:Hone.
           ++ apply Z.eqb_eq in Hone. cbn [smartsplit_spec].
              repeat split; [exact Hfs|lia|].
              intros other Ho. apply feasible_nonempty in Ho; [|exact Hne].
              cbn [length] in *. lia.
           ++ apply Z.eqb_neq in Hone.
              assert (Hcut : firstn (S k) cut <> []).
              { destruct cut; [contradiction|discriminate]. }
              assert (Hflen : length (firstn (S k) cut) = S k).
              { rewrite length_firstn. lia. }
              pose proof (smartsplit_for_lt _ Hcut) as Hshr.
              rewrite Hflen in Hshr.
              apply IH; [lia|lia|]. split; [cbn [length] in *; lia|].
              split.
              { repeat split; [exact Hfs|destruct best_split; lia || (destruct Hbest as (_ & _ & ?); lia)]. }
              intros first rest Hfirst Ho.
              destruct (Nat.lt_trichotomy first (S k)) as [Hsk|[->|Hsk]].
              ** (* a length the loop skipped *)
                 apply feasible_cons in Ho as (Hr & _ & Hrest).
                 cbv iota in Hrest.
                 rewrite (skipn_split_at first (S k)) in Hrest by lia.
                 apply feasible_drop_front in Hrest as (split' & Hf' & Hl').
                 --- apply Hmin in Hf'. cbn [length]. lia.
                 --- apply smartsplit_for_skipped. rewrite Hflen. exact Hfirst.
              ** apply feasible_cons in Ho as (_ & _ & Hrest).
                 apply Hmin in Hrest. cbn [length]. lia.
              ** specialize (Hseen first rest Hsk Ho). lia.
        -- (* the rest cannot be split within the budget *)
           apply IH; [cbn; lia|cbn; lia|]. split; [exact Hb2|].
           split; [exact Hbest|]. cbn [pred].
           intros first rest Hfirst Ho.
           destruct (Nat.eq_dec first (S k)) as [->|Hneq].
           ++ apply feasible_cons in Ho as (_ & _ & Hrest).
              apply Hrec in Hrest. cbn [length]. lia.
           ++ apply Hseen; [lia|exact Ho].
      * (* the subcut is not valid *)
        apply IH; [cbn; lia|cbn; lia|]. split; [exact Hb2|].
        split; [exact Hbest|]. cbn [pred].
        intros first rest Hfirst Ho.
        destruct (Nat.eq_dec first (S k)) as [->|Hneq].
        -- apply feasible_cons in Ho as (_ & Hp & _). congruence.
        -- apply Hseen; [lia|exact Ho].
Qed.

End SmartsplitOptimal.

Section SmartsplitCorrect.

Context {T : Type} `{NumberLaws T}.

Lemma smartsplit_rec_spec (depth : nat) (capacity : T) :
  gt0 capacity = true ->
  forall (cut : list T) (max_parts : Z),
    length cut <= depth ->
    smartsplit_spec capacity cut max_parts
                    (smartsplit_rec depth capacity cut max_parts).
Proof.
  intros Hcap. induction depth as [|depth IH]; intros cut max_parts Hd.
  all: destruct cut as [|x cut]; cbn [smartsplit_rec]; rewrite Hcap.
  all: try (cbn [smartsplit_spec]; repeat split;
            [cbn [length]; lia | intros; cbn [length]; lia]).
  all: destruct (Z.leb_spec max_parts 0) as [Hmp0|Hmp0].
  all: try (cbn [smartsplit_spec]; intros other Ho;
            apply feasible_nonempty in Ho; [lia|discriminate]).
  all: destruct (Z.eqb_spec max_parts 1) as [->|Hmp1].
  all: try (destruct (pulls capacity (x :: cut)) eqn:Hp; cbn [smartsplit_spec];
            [ repeat split;
              [ rewrite feasible_whole by discriminate; exact Hp
              | cbn [length]; lia
              | intros other Ho; apply feasible_nonempty in Ho;
                [cbn [length]; lia | discriminate] ]
            | intros [|first [|second rest]] Ho;
              [ apply feasible_nil in Ho; discriminate
              | apply feasible_single in Ho; congruence
              | cbn [length]; lia ] ]).
  - cbn [length] in Hd. lia.
  - apply smartsplit_while_spec; try lia; try discriminate.
    + intros this_len budget Hl. apply IH.
      rewrite length_skipn. cbn [length] in *. lia.
    + split; [lia|]. split; [reflexivity|].
      intros first rest Hfirst Ho.
      apply feasible_cons in Ho as (Hl & _). lia.
Qed.

End SmartsplitCorrect.

(** Soundness alone needs no law of arithmetic: whatever [+] and [>] do,
    the split that comes back passed the very tests that define
    feasibility. *)
Section SmartsplitSound.

Context {T : Type} `{Number T}.

Lemma smartsplit_while_sound
      (self : list T -> Z -> result (option (list nat)))
      (capacity : T) (cut : list T) :
  (forall this_len budget,
      sound_result capacity (skipn this_len cut)
                   (self (skipn this_len cut) budget)) ->
  forall fuel this_len best_split best_split_len,
    this_len <= length cut ->
    sound_result capacity cut (Ok best_split) ->
    sound_result capacity cut
      (smartsplit_while self fuel capacity cut this_len
                        best_split best_split_len).
Proof.
  intros Hself fuel.
  induction fuel as [|fuel IH];
    intros this_len best_split best_split_len Hlen Hbest;
    destruct this_len as [|k]; cbn [smartsplit_while]; try exact Hbest.
  - intros split Hr; discriminate Hr.
  - cbv zeta. destruct (pulls capacity (firstn (S k) cut)) eqn:Hpull.
    + pose proof (Hself (S k) (best_split_len - 2)%Z) as Hrec.
      destruct (self (skipn (S k) cut) (best_split_len - 2)%Z)
        as [[split|]| |]; cbn [bind];
        [ | | intros ? Hr; discriminate Hr | intros ? Hr; discriminate Hr].
      * assert (Hfs : feasible false capacity cut (S k :: split) = true).
        { apply feasible_cons. repeat split; try lia; [exact Hpull|].
          now apply Hrec. }
        assert (Hshr : smartsplit_for (rev (firstn (S k) cut)) (S k)
                       <= length cut).
        { clear - Hlen. generalize (rev (firstn (S k) cut)).
          generalize (S k) Hlen. clear.
          intros n Hn l; revert n Hn.
          induction l as [|r l IHl]; intros n Hn; cbn [smartsplit_for];
            [exact Hn|].
          destruct (gt0 r); [lia|]. apply IHl. lia. }
        destruct (Z.of_nat (length (S k :: split)) <? best_split_len)%Z.
        -- destruct (Z.of_nat (length (S k :: split)) =? 1)%Z.
           ++ intros ? [= <-]. exact Hfs.
           ++ apply IH; [exact Hshr|]. intros ? [= <-]. exact Hfs.
        -- apply IH; [exact Hshr|exact Hbest].
      * apply IH; [cbn; lia|exact Hbest].
    + apply IH; [cbn; lia|exact Hbest].
Qed.

Lemma smartsplit_rec_sound (depth : nat) (capacity : T) :
  forall (cut : list T) (max_parts : Z),
    sound_result capacity cut (smartsplit_rec depth capacity cut max_parts).
Proof.
  induction depth as [|depth IH]; intros cut max_parts;
    cbn [smartsplit_rec]; (destruct (gt0 capacity);
                           [|intros ? Hr; discriminate Hr]).
  all: destruct cut as [|x cut];
    [intros ? [= <-]; now apply feasible_nil|].
  all: destruct (max_parts <=? 0)%Z; [intros ? Hr; discriminate Hr|].
  all: destruct (max_parts =? 1)%Z;
    [destruct (pulls capacity (x :: cut)) eqn:Hp; intros ? Hr;
     [injection Hr as <-|discriminate Hr];
     change (S (length cut)) with (length (x :: cut));
     rewrite feasible_whole by discriminate; exact Hp|].
  - intros ? Hr; discriminate Hr.
  - apply smartsplit_while_sound; [|lia|intros ? Hr; discriminate Hr].
    intros this_len budget. apply IH.
Qed.

End SmartsplitSound.

(** ** The splitters: main results *)

(** C1.  With a positive capacity, whenever some split of the cut into at
    most [max_parts] subcuts is feasible without replenishment,
    [smartsplit] returns a feasible split within [max_parts] that has the
    fewest parts of all feasible splits; in particular it has no more
    parts than the split [fastsplit] returns without net collection.  The
    lengths the tail-shrinking loop skips are covered by the proof. *)
Theorem smartsplit_fewest_parts
        (T : Type) `{NumberLaws T}
        (capacity : T) (cut : list T) (max_parts : Z) :
  gt0 capacity = true ->
  (exists split, feasible false capacity cut split = true /\
                 (Z.of_nat (length split) <= max_parts)%Z) ->
  exists best,
    smartsplit capacity cut max_parts = Ok (Some best) /\
    feasible false capacity cut best = true /\
    (Z.of_nat (length best) <= max_parts)%Z /\
    (forall other, feasible false capacity cut other = true ->
                   length best <= length other) /\
    (forall greedy, fastsplit capacity cut false = Ok (Some greedy) ->
                    length best <= length greedy).
Proof.
  intros Hcap (split & Hsplit & Hwithin).
  pose proof (smartsplit_rec_spec (length cut) capacity Hcap cut max_parts
                                  (le_n _)) as Hspec.
  unfold smartsplit.
  destruct (smartsplit_rec (length cut) capacity cut max_parts)
    as [[best|]| |]; cbn [smartsplit_spec] in Hspec; try contradiction.
  - destruct Hspec as (Hf & Hl & Hmin).
    exists best. repeat split; try assumption; [lia|].
    intros greedy Hgreedy. apply Hmin.
    unfold fastsplit in Hgreedy. rewrite Hcap in Hgreedy.
    apply fastsplit_loop_sound in Hgreedy as (rest & -> & Hfeas).
    exact Hfeas.
  - apply Hspec in Hsplit. lia.
Qed.

Lemma smartsplit_fewest_parts_witness :
  gt0 10%Z = true /\
  exists best,
    smartsplit 10%Z [-9; 10; -19]%Z 3 = Ok (Some best) /\
    feasible false 10%Z [-9; 10; -19]%Z best = true /\
    (Z.of_nat (length best) <= 3)%Z /\
    (forall other, feasible false 10%Z [-9; 10; -19]%Z other = true ->
                   length best <= length other) /\
    (forall greedy, fastsplit 10%Z [-9; 10; -19]%Z false = Ok (Some greedy) ->
                    length best <= length greedy).
Proof.
  split; [reflexivity|].
  apply (smartsplit_fewest_parts Z 10%Z [-9; 10; -19]%Z 3); [reflexivity|].
  exists [1; 2]. split; [reflexivity | simpl; lia].
Defined.

(** C2.  With a positive capacity, a split returned by either splitter is
    a sequence of positive lengths that add up to the length of the cut,
    and each subcut it induces can be pulled: the capacity, grown by the
    positive forces of the subcuts before it when [fastsplit] collects
    and never grown for [smartsplit], plus the sum of the subcut's forces
    is positive. *)
Theorem split_covers_and_pulls
        (T : Type) `{Number T} (capacity : T) (cut : list T) :
  gt0 capacity = true ->
  (forall collect_net split,
      fastsplit capacity cut collect_net = Ok (Some split) ->
      Forall (fun this_len => 0 < this_len) split /\
      list_sum split = length cut /\
      subcuts_pull collect_net capacity cut split = true) /\
  (forall max_parts split,
      smartsplit capacity cut max_parts = Ok (Some split) ->
      Forall (fun this_len => 0 < this_len) split /\
      list_sum split = length cut /\
      subcuts_pull false capacity cut split = true).
Proof.
  intros Hcap. split.
  - intros collect_net split Hs. unfold fastsplit in Hs. rewrite Hcap in Hs.
    apply fastsplit_loop_sound in Hs as (rest & -> & Hf).
    unfold feasible in Hf. apply andb_true_iff in Hf as [Hs Hp].
    apply is_split_sum in Hs as [Hpos Hsum]. now repeat split.
  - intros max_parts split Hs. apply smartsplit_rec_sound in Hs.
    unfold feasible in Hs. apply andb_true_iff in Hs as [Hs Hp].
    apply is_split_sum in Hs as [Hpos Hsum]. now repeat split.
Qed.

Lemma split_covers_and_pulls_witness :
  gt0 5%Z = true /\
  Forall (fun this_len => 0 < this_len) [3; 1] /\
  list_sum [3; 1] = length [5; -3; -3; -7]%Z /\
  subcuts_pull true 5%Z [5; -3; -3; -7]%Z [3; 1] = true.
Proof.
  split; [reflexivity|].
  assert (Hcap : gt0 5%Z = true) by reflexivity.
  apply (proj1 (split_covers_and_pulls Z 5%Z [5; -3; -3; -7]%Z Hcap) true).
  reflexivity.
Defined.

(** C3.  With a positive capacity and a non-empty cut, [fastsplit] is its
    loop started with no split recorded, and each pass of the loop, on
    whatever is left of the cut, records the largest length [this_len]
    with [capacity + sum(cut[:this_len]) > 0], adds
    [sum(x for x in cut[:this_len] if x > 0)] to the capacity exactly
    when [collect_net] is set, and goes on past the prefix; it returns
    [None] as soon as no prefix passes the test, and the recorded lengths
    once nothing is left.  [fastsplit(10, (-3,-3,-3,-3))] without
    collection is [(3, 1)]; [fastsplit(5, (5,-3,-3,-7))] is [(3, 1)] with
    collection and [None] without. *)
Theorem fastsplit_takes_longest_prefix
        (T : Type) `{Number T}
        (capacity : T) (cut : list T) (collect_net : bool) :
  gt0 capacity = true -> cut <> [] ->
  fastsplit capacity cut collect_net =
  fastsplit_loop capacity cut [] collect_net /\
  (forall (available : T) (remaining : list T) (splits : list nat),
      remaining <> [] ->
      ((forall this_len,
           1 <= this_len <= length remaining ->
           gt0 (num_add available (py_sum (firstn this_len remaining)))
           = false) ->
       fastsplit_loop available remaining splits collect_net = Ok None) /\
      (forall this_len,
          1 <= this_len <= length remaining ->
          gt0 (num_add available (py_sum (firstn this_len remaining)))
          = true ->
          (forall longer,
              this_len < longer <= length remaining ->
              gt0 (num_add available (py_sum (firstn longer remaining)))
              = false) ->
          fastsplit_loop available remaining splits collect_net =
          fastsplit_loop
            (if collect_net
             then num_add available
                          (py_sum (filter (fun x => gt0 x)
                                          (firstn this_len remaining)))
             else available)
            (skipn this_len remaining) (splits ++ [this_len]) collect_net)) /\
  (forall (available : T) (splits : list nat),
      fastsplit_loop available [] splits collect_net = Ok (Some splits)) /\
  fastsplit 10%Z [-3; -3; -3; -3]%Z false = Ok (Some [3; 1]) /\
  fastsplit 5%Z [5; -3; -3; -7]%Z true = Ok (Some [3; 1]) /\
  fastsplit 5%Z [5; -3; -3; -7]%Z false = Ok None.
Proof.
  intros Hcap Hne. split; [unfold fastsplit; now rewrite Hcap|].
  split; [|repeat split; reflexivity].
  intros available remaining splits Hrem. split.
  - intros Hnone. rewrite fastsplit_loop_unfold.
    destruct remaining; [contradiction|].
    apply fastsplit_for_none in Hnone. now rewrite Hnone.
  - intros this_len Hr Hp Hlongest. rewrite fastsplit_loop_unfold.
    destruct remaining; [contradiction|].
    now rewrite (fastsplit_for_longest _ _ _ _ Hr Hp Hlongest).
Qed.

Lemma fastsplit_takes_longest_prefix_witness :
  (gt0 5%Z = true /\ [5; -3; -3; -7]%Z <> []) /\
  fastsplit_loop 5%Z [5; -3; -3; -7]%Z [] true =
  fastsplit_loop (5 + py_sum (filter (fun x => gt0 x) [5; -3; -3]))%Z
                 [-7]%Z [3] true.
Proof.
  split; [split; [reflexivity|discriminate]|].
  assert (Hcap : gt0 5%Z = true) by reflexivity.
  assert (Hne : [5; -3; -3; -7]%Z <> []) by discriminate.
  destruct (fastsplit_takes_longest_prefix
              Z 5%Z [5; -3; -3; -7]%Z true Hcap Hne) as (_ & Hstep & _).
  apply (proj2 (Hstep 5%Z [5; -3; -3; -7]%Z [] Hne) 3).
  - cbn [length]. lia.
  - reflexivity.
  - intros longer Hlonger. cbn [length] in Hlonger.
    assert (longer = 4) as -> by lia. reflexivity.
Defined.

(** C4.  With a positive capacity, [smartsplit] of an empty cut is the
    empty split; of a non-empty cut with [max_parts <= 0] it is [None];
    of a non-empty cut with [max_parts = 1] it is the single part
    [(len(cut),)] when [capacity + sum(cut) > 0] and [None] otherwise. *)
Theorem smartsplit_base_cases
        (T : Type) `{Number T} (capacity : T) :
  gt0 capacity = true ->
  (forall max_parts, smartsplit capacity [] max_parts = Ok (Some [])) /\
  (forall cut max_parts,
      cut <> [] -> (max_parts <= 0)%Z ->
      smartsplit capacity cut max_parts = Ok None) /\
  (forall cut,
      cut <> [] ->
      smartsplit capacity cut 1 =
      Ok (if gt0 (num_add capacity (py_sum cut))
          then Some [length cut] else None)).
Proof.
  intros Hcap. unfold smartsplit. repeat split.
  - intros max_parts. cbn [length smartsplit_rec]. now rewrite Hcap.
  - intros [|x cut] max_parts Hne Hmp; [contradiction|].
    cbn [length smartsplit_rec]. rewrite Hcap.
    apply Z.leb_le in Hmp. now rewrite Hmp.
  - intros [|x cut] Hne; [contradiction|].
    cbn [length smartsplit_rec]. rewrite Hcap.
    cbn [Z.leb Z.eqb Z.compare Pos.eqb]. unfold pulls.
    now destruct (gt0 (num_add capacity (py_sum (x :: cut)))).
Qed.

Lemma smartsplit_base_cases_witness :
  gt0 1%Z = true /\
  smartsplit 1%Z [-5]%Z 1 =
  Ok (if gt0 (num_add 1%Z (py_sum [-5]%Z)) then Some [length [-5]%Z] else None).
Proof.
  split; [reflexivity|].
  assert (Hcap : gt0 1%Z = true) by reflexivity.
  apply (smartsplit_base_cases Z 1%Z Hcap). discriminate.
Defined.

(** C9.  With a capacity that is not positive, both splitters fail their
    assertion at once, whatever the cut: neither a split nor [None] comes
    back. *)
Theorem splitters_reject_capacity
        (T : Type) `{NumberLaws T}
        (capacity : T) (cut : list T) (collect_net : bool) (max_parts : Z) :
  le0 capacity = true ->
  fastsplit capacity cut collect_net = Raise AssertionError /\
  smartsplit capacity cut max_parts = Raise AssertionError.
Proof.
  rewrite le0_not_gt0, negb_true_iff. intros Hcap.
  unfold fastsplit, smartsplit. rewrite Hcap.
  destruct (length cut); cbn [smartsplit_rec]; now rewrite Hcap.
Qed.

Lemma splitters_reject_capacity_witness :
  le0 0%Z = true /\
  fastsplit 0%Z [1; 2]%Z true = Raise AssertionError /\
  smartsplit 0%Z [1; 2]%Z 2 = Raise AssertionError.
Proof.
  split; [reflexivity|].
  apply (splitters_reject_capacity Z 0%Z [1; 2]%Z true 2). reflexivity.
Defined.


(** ** The force model *)

Section ForceFacts.

Local Open Scope R_scope.

Lemma grade_root_positive (grade : R) : 0 < sqrt (grade * grade + 1).
Proof. apply sqrt_lt_R0. nra. Qed.

Lemma math_sqrt_grade (grade : R) :
  math_sqrt (grade * grade + 1) = Ok (sqrt (grade * grade + 1)).
Proof.
  unfold math_sqrt. destruct (Rlt_dec (grade * grade + 1) 0); [nra|reflexivity].
Qed.

Lemma py_truediv_ok (x y : R) : y <> 0 -> py_truediv x y = Ok (x / y).
Proof.
  intros Hy. unfold py_truediv. now destruct (Req_dec_T y 0).
Qed.

Lemma py_truediv_zero (x y : R) :
  y = 0 -> py_truediv x y = Raise ZeroDivisionError.
Proof.
  intros Hy. unfold py_truediv. now destruct (Req_dec_T y 0).
Qed.

(** The starting force never raises: the root is taken of a positive
    number and is not zero. *)
Lemma starting_force_value (x : Calculative) (grade : R) :
  starting_force x grade = Ok (force_on_grade x grade).
Proof.
  unfold starting_force. rewrite math_sqrt_grade. cbn [bind].
  apply py_truediv_ok. pose proof (grade_root_positive grade). lra.
Qed.

Lemma net_force_capacity_value (x : Calculative) (grade max_power : R) :
  net_force_capacity x grade max_power = Ok (net_capacity x grade max_power).
Proof.
  unfold net_force_capacity. now rewrite starting_force_value.
Qed.

Lemma map_result_ok {X Y : Type} (f : X -> result Y) (g : X -> Y)
      (xs : list X) :
  (forall x, f x = Ok (g x)) -> map_result f xs = Ok (map g xs).
Proof.
  intros Hf. induction xs as [|x xs IH]; cbn [map_result map];
    [reflexivity|]. now rewrite Hf, IH.
Qed.

Lemma le0_R (x : R) : le0 x = true <-> x <= 0.
Proof. apply le_R_true. Qed.

Lemma gt0_R (x : R) : gt0 x = true <-> 0 < x.
Proof. apply gt_R_true. Qed.

Lemma gt0_R_false (x : R) : gt0 x = false <-> x <= 0.
Proof. apply gt_R_false. Qed.

(** [max(c) <= 0] says that no member of [c] is positive. *)
Lemma py_max_le0 (x : R) (rest : list R) :
  le0 (fold_left (fun best y => if num_gt y best then y else best) rest x)
  = forallb le0 (x :: rest).
Proof.
  revert x; induction rest as [|y rest IH]; intros x; cbn [fold_left forallb].
  - now rewrite andb_true_r.
  - rewrite IH. cbn [forallb]. rewrite andb_assoc. f_equal.
    destruct (num_gt y x) eqn:E.
    + apply gt_R_true in E.
      destruct (le0 y) eqn:Ey.
      * apply le0_R in Ey. rewrite andb_true_r. symmetry. apply le0_R. lra.
      * now rewrite andb_false_r.
    + apply gt_R_false in E.
      destruct (le0 x) eqn:Ex; [|reflexivity].
      apply le0_R in Ex. symmetry. apply le0_R. lra.
Qed.

End ForceFacts.

(** ** The orchestrator *)

(** What [compute_split] does on a non-empty cut, in terms of the values
    [net_force_capacity] returns. *)
Lemma compute_split_unfold
      (power : Calculative) (cut : Train) (grade max_power : R)
      (collect_net : bool) :
  cut <> [] ->
  let p := net_capacity power grade max_power in
  let c := map (fun unit => net_capacity (Stock unit) grade max_power) cut in
  compute_split power cut grade max_power collect_net =
  if forallb le0 c || collect_net
  then fastsplit p c true
  else smartsplit p c (Z.of_nat (length cut)).
Proof.
  intros Hne p c.
  assert (Hc : map_result
                 (fun unit => net_force_capacity (Stock unit) grade max_power)
                 cut = Ok c).
  { apply map_result_ok. intros unit. apply net_force_capacity_value. }
  unfold compute_split. cbv zeta.
  rewrite net_force_capacity_value, Hc. cbn [bind]. fold p.
  destruct c as [|force forces] eqn:Ec.
  - destruct cut; [contradiction|discriminate].
  - cbn [py_max bind]. now rewrite py_max_le0.
Qed.

(** C5.  For a non-empty cut, [compute_split] gets the capacity of the
    power and the force of every member from [net_force_capacity], which
    returns for each of them, and then is [fastsplit] of those values
    with collection on when no member's force is positive or
    [collect_net] is asked for, and [smartsplit] of those values with
    [max_parts] the number of units of the cut otherwise. *)
Theorem compute_split_dispatch
        (power : Calculative) (cut : Train) (grade max_power : R)
        (collect_net : bool) :
  cut <> [] ->
  let p := net_capacity power grade max_power in
  let c := map (fun unit => net_capacity (Stock unit) grade max_power) cut in
  net_force_capacity power grade max_power = Ok p /\
  map_result (fun unit => net_force_capacity (Stock unit) grade max_power) cut
  = Ok c /\
  compute_split power cut grade max_power collect_net =
  if forallb le0 c || collect_net
  then fastsplit p c true
  else smartsplit p c (Z.of_nat (length cut)).
Proof.
  intros Hne p c.
  split; [apply net_force_capacity_value|]. split.
  - apply map_result_ok. intros unit. apply net_force_capacity_value.
  - now apply compute_split_unfold.
Qed.

(** C10.  On an empty cut [compute_split] raises, whatever the power, the
    grade, the power ratio and the flag: [max] is taken of an empty
    tuple.  Given an empty cut directly, [fastsplit] and [smartsplit]
    each return the empty split. *)
Theorem compute_split_empty_cut
        (power : Calculative) (grade max_power : R) (collect_net : bool) :
  compute_split power [] grade max_power collect_net = Raise ValueError /\
  forall (T : Type) `{Number T} (capacity : T) (collect : bool)
         (max_parts : Z),
    gt0 capacity = true ->
    fastsplit capacity [] collect = Ok (Some []) /\
    smartsplit capacity [] max_parts = Ok (Some []).
Proof.
  split.
  - unfold compute_split. cbv zeta. rewrite net_force_capacity_value.
    reflexivity.
  - intros T HT capacity collect max_parts Hcap.
    unfold fastsplit, smartsplit, fastsplit_loop.
    cbn [length fastsplit_while smartsplit_rec]. now rewrite Hcap.
Qed.

Lemma compute_split_dispatch_witness :
  [Car "hopper" 1000] <> [] /\
  compute_split (Stock (TractiveCar "engine" 100 60)) [Car "hopper" 1000]
                0 1 false =
  if forallb le0 [net_capacity (Stock (Car "hopper" 1000)) 0 1] || false
  then fastsplit (net_capacity (Stock (TractiveCar "engine" 100 60)) 0 1)
                 [net_capacity (Stock (Car "hopper" 1000)) 0 1] true
  else smartsplit (net_capacity (Stock (TractiveCar "engine" 100 60)) 0 1)
                  [net_capacity (Stock (Car "hopper" 1000)) 0 1] 1.
Proof.
  split; [discriminate|].
  apply (compute_split_dispatch
           (Stock (TractiveCar "engine" 100 60)) [Car "hopper" 1000]
           0 1 false).
  discriminate.
Defined.

Lemma compute_split_empty_cut_witness :
  gt0 10%Z = true /\
  fastsplit 10%Z [] true = Ok (Some []) /\
  smartsplit 10%Z [] 0 = Ok (Some []).
Proof.
  split; [reflexivity|].
  apply (proj2 (compute_split_empty_cut (Consist []) 0 1 false) Z _ 10%Z true 0%Z).
  reflexivity.
Defined.

(** ** Degenerate physics *)

Section Degenerate.

Local Open Scope R_scope.

Variable x : Calculative.

Lemma starting_power_unpowered (grade : R) :
  tractive_effort x = 0 ->
  starting_power x grade = Raise ZeroDivisionError.
Proof.
  intros HF. unfold starting_power. rewrite starting_force_value. cbn [bind].
  now apply py_truediv_zero.
Qed.

Lemma starting_power_powered (grade : R) :
  tractive_effort x <> 0 ->
  starting_power x grade = Ok (force_on_grade x grade / tractive_effort x).
Proof.
  intros HF. unfold starting_power. rewrite starting_force_value. cbn [bind].
  now apply py_truediv_ok.
Qed.

Lemma maximum_grade_negative_discriminant :
  mass x ^ 2 * (mu ^ 2 + 1) - tractive_effort x ^ 2 < 0 ->
  maximum_grade x = Raise ValueError.
Proof.
  intros Hd. unfold maximum_grade, math_sqrt. cbv zeta.
  destruct (Rlt_dec (mass x ^ 2 * (mu ^ 2 + 1) - tractive_effort x ^ 2) 0);
    [reflexivity|contradiction].
Qed.

Lemma maximum_grade_zero_divisor :
  0 <= mass x ^ 2 * (mu ^ 2 + 1) - tractive_effort x ^ 2 ->
  tractive_effort x ^ 2 - mass x ^ 2 = 0 ->
  maximum_grade x = Raise ZeroDivisionError.
Proof.
  intros Hd Hz. unfold maximum_grade, math_sqrt. cbv zeta.
  destruct (Rlt_dec (mass x ^ 2 * (mu ^ 2 + 1) - tractive_effort x ^ 2) 0);
    [lra|]. cbn [bind]. now apply py_truediv_zero.
Qed.

Lemma maximum_grade_balanced :
  tractive_effort x = mass x ->
  maximum_grade x = Raise ZeroDivisionError.
Proof.
  intros HFM. apply maximum_grade_zero_divisor; rewrite HFM; [|lra].
  unfold mu. nra.
Qed.

Lemma maximum_grade_regular :
  0 <= mass x ^ 2 * (mu ^ 2 + 1) - tractive_effort x ^ 2 ->
  tractive_effort x ^ 2 - mass x ^ 2 <> 0 ->
  returns (maximum_grade x).
Proof.
  intros Hd Hz. unfold maximum_grade, math_sqrt. cbv zeta.
  destruct (Rlt_dec (mass x ^ 2 * (mu ^ 2 + 1) - tractive_effort x ^ 2) 0);
    [lra|]. cbn [bind]. rewrite py_truediv_ok by exact Hz.
  eexists; reflexivity.
Qed.

End Degenerate.

Lemma raise_not_returns {A : Type} (r : result A) (e : exn) :
  r = Raise e -> ~ returns r.
Proof. intros -> [a Ha]. discriminate. Qed.

(** C8, as the code has it.  Where the force model divides by zero or
    takes the root of a negative number no value comes back at all:
    [starting_power] raises [ZeroDivisionError] when the total tractive
    effort is 0, and [maximum_grade] raises [ValueError] when the
    discriminant is negative and [ZeroDivisionError] when the tractive
    effort equals the mass.  Everywhere else both return a number. *)
Theorem degenerate_physics_raises (x : Calculative) (grade : R) :
  (tractive_effort x = 0%R ->
   starting_power x grade = Raise ZeroDivisionError) /\
  (tractive_effort x <> 0%R -> returns (starting_power x grade)) /\
  (mass x ^ 2 * (mu ^ 2 + 1) - tractive_effort x ^ 2 < 0 ->
   maximum_grade x = Raise ValueError)%R /\
  (tractive_effort x = mass x ->
   maximum_grade x = Raise ZeroDivisionError) /\
  (0 <= mass x ^ 2 * (mu ^ 2 + 1) - tractive_effort x ^ 2 ->
   tractive_effort x ^ 2 - mass x ^ 2 <> 0 ->
   returns (maximum_grade x))%R.
Proof.
  repeat split.
  - apply starting_power_unpowered.
  - intros HF. rewrite starting_power_powered by exact HF.
    eexists; reflexivity.
  - apply maximum_grade_negative_discriminant.
  - apply maximum_grade_balanced.
  - apply maximum_grade_regular.
Qed.

Lemma degenerate_physics_raises_witness :
  tractive_effort (Consist [Car "boxcar" 1000]) = 0%R /\
  starting_power (Consist [Car "boxcar" 1000]) (1 / 100)
  = Raise ZeroDivisionError.
Proof.
  assert (HF : tractive_effort (Consist [Car "boxcar" 1000]) = 0%R).
  { unfold tractive_effort, train_tractive_effort, py_sum. simpl. lra. }
  split; [exact HF|].
  apply (proj1 (degenerate_physics_raises
                  (Consist [Car "boxcar" 1000]) (1 / 100)) HF).
Defined.

(** C8, as stated, fails: a train of one unpowered car has no starting
    power to report, an engine whose tractive effort equals its mass has
    no maximum grade, and neither has one whose tractive effort is twice
    its mass; each call raises instead of returning a number that is not
    finite. *)
Lemma degenerate_physics_counterexample :
  ~ returns (starting_power (Consist [Car "boxcar" 1000]) (1 / 100)) /\
  ~ returns (maximum_grade (Stock (TractiveCar "balanced" 1000 1000))) /\
  ~ returns (maximum_grade (Stock (TractiveCar "overpowered" 1 2))).
Proof.
  repeat split.
  - apply raise_not_returns with (e := ZeroDivisionError).
    apply starting_power_unpowered.
    unfold tractive_effort, train_tractive_effort, py_sum. simpl. lra.
  - apply raise_not_returns with (e := ZeroDivisionError).
    apply maximum_grade_balanced. reflexivity.
  - apply raise_not_returns with (e := ValueError).
    apply maximum_grade_negative_discriminant.
    unfold mu. simpl. lra.
Qed.

(** ** From a split to trips *)

Example split_to_slices_scenario_1 :
  split_to_slices [3; 1] = [(0, 3); (3, 4)].
Proof. reflexivity. Qed.

Example split_to_subcuts_scenario_1 :
  split_to_subcuts
    [Car "a" 1; Car "b" 2; Car "c" 3; Car "d" 4] [3; 1] =
  [[Car "a" 1; Car "b" 2; Car "c" 3]; [Car "d" 4]].
Proof. reflexivity. Qed.

Section TripFacts.

Local Open Scope R_scope.

Variable tractive_units : Train -> Train.

Lemma map2_repeat {X Y W : Type} (f : X -> Y -> W) (x : X) (ys : list Y) :
  map2 f (repeat x (length ys)) ys = map (f x) ys.
Proof.
  induction ys as [|y ys IH]; cbn [length repeat map2 map];
    [reflexivity|]. now rewrite IH.
Qed.

Lemma accumulate_trips (power : Train) (subcuts : list Train) :
  map2 (@app RollingStock)
       (accumulate_initial (@app RollingStock) power
                           (map tractive_units subcuts))
       subcuts
  = trips_from tractive_units power subcuts.
Proof.
  unfold accumulate_initial. revert power.
  induction subcuts as [|subcut rest IH]; intros power;
    cbn [map accumulate_from map2 trips_from]; [reflexivity|].
  f_equal. rewrite <- IH. reflexivity.
Qed.

Lemma trips_from_length (power : Train) (subcuts : list Train) :
  length (trips_from tractive_units power subcuts) = length subcuts.
Proof.
  revert power; induction subcuts as [|subcut rest IH]; intros power;
    cbn [trips_from length]; [reflexivity|]. now rewrite IH.
Qed.

Lemma trips_from_nth (power : Train) (subcuts : list Train)
      (i : nat) (subcut : Train) :
  nth_error subcuts i = Some subcut ->
  nth_error (trips_from tractive_units power subcuts) i =
  Some ((power ++ concat (map tractive_units (firstn i subcuts))) ++ subcut).
Proof.
  revert power i; induction subcuts as [|first rest IH]; intros power i Hi.
  - destruct i; discriminate.
  - destruct i as [|i]; cbn [nth_error trips_from firstn map concat] in *.
    + injection Hi as ->. now rewrite app_nil_r.
    + rewrite (IH _ _ Hi). now rewrite <- (app_assoc power).
Qed.

Lemma py_sum_R_cons (a : R) (xs : list R) : py_sum (a :: xs) = a + py_sum xs.
Proof. exact (@py_sum_cons R Number_R NumberLaws_R a xs). Qed.

Lemma py_sum_R_app (xs ys : list R) : py_sum (xs ++ ys) = py_sum xs + py_sum ys.
Proof. exact (@py_sum_app R Number_R NumberLaws_R xs ys). Qed.

Lemma train_mass_app (a b : Train) :
  train_mass (a ++ b) = train_mass a + train_mass b.
Proof. unfold train_mass. now rewrite map_app, py_sum_R_app. Qed.

Lemma train_tractive_effort_app (a b : Train) :
  train_tractive_effort (a ++ b) =
  train_tractive_effort a + train_tractive_effort b.
Proof. unfold train_tractive_effort. now rewrite map_app, py_sum_R_app. Qed.

Lemma as_train_mass (power : Calculative) :
  train_mass (as_train power) = mass power.
Proof.
  destruct power as [unit|t]; [|reflexivity].
  unfold train_mass. cbn [as_train map mass]. rewrite py_sum_R_cons.
  unfold py_sum; cbn. lra.
Qed.

Lemma as_train_tractive_effort (power : Calculative) :
  train_tractive_effort (as_train power) = tractive_effort power.
Proof.
  destruct power as [unit|t]; [|reflexivity].
  unfold train_tractive_effort. cbn [as_train map tractive_effort].
  rewrite py_sum_R_cons. unfold py_sum; cbn. lra.
Qed.

Lemma collected_aggregate (measure : Train -> R) (delivered : list Train) :
  (forall a b, measure (a ++ b) = measure a + measure b) ->
  measure [] = 0 ->
  (forall t, measure (tractive_units t) = measure t) ->
  measure (concat (map tractive_units delivered)) =
  py_sum (map measure delivered).
Proof.
  intros Happ Hnil Htu.
  induction delivered as [|t rest IH]; cbn [map concat].
  - exact Hnil.
  - now rewrite Happ, Htu, IH, py_sum_R_cons.
Qed.

End TripFacts.

(** C6.  [split_to_trips] pairs every subcut with a power.  By default
    each trip is the original power followed by its subcut.  With forward
    collection the power of a trip is the original power followed by what
    [tractive_units] gives for each subcut before it, in order; when the
    units it gives carry the tractive effort and the mass of the subcut
    they come from, the power of a trip has the tractive effort and the
    mass of the original power plus those of all the subcuts strictly
    before it. *)
Theorem trips_pair_power_with_subcuts
        (tractive_units : Train -> Train)
        (power : Calculative) (cut : Train) (split : list nat) :
  (forall t, train_tractive_effort (tractive_units t) = train_tractive_effort t
             /\ train_mass (tractive_units t) = train_mass t) ->
  let subcuts := split_to_subcuts cut split in
  split_to_trips tractive_units power cut split false
  = map (attach power) subcuts /\
  length (split_to_trips tractive_units power cut split true)
  = length subcuts /\
  forall i subcut,
    nth_error subcuts i = Some subcut ->
    let trip_power :=
      as_train power ++ concat (map tractive_units (firstn i subcuts)) in
    nth_error (split_to_trips tractive_units power cut split true) i
    = Some (trip_power ++ subcut) /\
    train_tractive_effort trip_power =
    (tractive_effort power
     + py_sum (map train_tractive_effort (firstn i subcuts)))%R /\
    train_mass trip_power =
    (mass power + py_sum (map train_mass (firstn i subcuts)))%R.
Proof.
  intros Htu subcuts. unfold split_to_trips. fold subcuts. cbv zeta.
  split; [exact (map2_repeat (@app RollingStock) (as_train power) subcuts)|].
  rewrite accumulate_trips.
  split; [apply trips_from_length|].
  intros i subcut Hi. split; [now apply trips_from_nth|]. split.
  - rewrite train_tractive_effort_app, as_train_tractive_effort.
    f_equal. apply collected_aggregate.
    + apply train_tractive_effort_app.
    + reflexivity.
    + intros t. apply Htu.
  - rewrite train_mass_app, as_train_mass.
    f_equal. apply collected_aggregate.
    + apply train_mass_app.
    + reflexivity.
    + intros t. apply Htu.
Qed.

Lemma trips_pair_power_with_subcuts_witness :
  split_to_trips (fun t => t) (Stock (TractiveCar "engine" 100 60))
                 [Car "a" 1; TractiveCar "b" 2 5; Car "c" 3] [2; 1] true
  = [[TractiveCar "engine" 100 60; Car "a" 1; TractiveCar "b" 2 5];
     [TractiveCar "engine" 100 60; Car "a" 1; TractiveCar "b" 2 5; Car "c" 3]]
  /\
  split_to_trips (fun t => t) (Stock (TractiveCar "engine" 100 60))
                 [Car "a" 1; TractiveCar "b" 2 5; Car "c" 3] [2; 1] false
  = map (attach (Stock (TractiveCar "engine" 100 60)))
        (split_to_subcuts [Car "a" 1; TractiveCar "b" 2 5; Car "c" 3] [2; 1]).
Proof.
  split; [reflexivity|].
  apply (trips_pair_power_with_subcuts
           (fun t => t) (Stock (TractiveCar "engine" 100 60))
           [Car "a" 1; TractiveCar "b" 2 5; Car "c" 3] [2; 1]).
  intros t. split; reflexivity.
Defined.

(** ** Splits over the real numbers: more force never hurts *)

Section RealSplits.

Local Open Scope R_scope.

Lemma pulls_R (capacity : R) (subcut : list R) :
  pulls capacity subcut = true <-> 0 < capacity + py_sum subcut.
Proof. unfold pulls. apply gt0_R. Qed.

Lemma net_of_R_cons (x : R) (xs : list R) :
  net_of (x :: xs) = (if gt0 x then x else 0) + net_of xs.
Proof.
  unfold net_of. cbn [filter]. destruct (gt0 x).
  - apply py_sum_R_cons.
  - lra.
Qed.

Lemma net_of_R_app (xs ys : list R) :
  net_of (xs ++ ys) = net_of xs + net_of ys.
Proof. unfold net_of. now rewrite filter_app, py_sum_R_app. Qed.

Lemma net_of_not_negative (xs : list R) : 0 <= net_of xs.
Proof.
  induction xs as [|x xs IH]; [unfold net_of, py_sum; simpl; lra|].
  rewrite net_of_R_cons. destruct (gt0 x) eqn:E; [|lra].
  apply gt0_R in E. lra.
Qed.

Lemma py_sum_le_net_of (xs : list R) : py_sum xs <= net_of xs.
Proof.
  induction xs as [|x xs IH]; [unfold net_of; simpl; lra|].
  rewrite net_of_R_cons, py_sum_R_cons. destruct (gt0 x) eqn:E; [lra|].
  apply gt0_R_false in E. lra.
Qed.

Lemma net_of_no_supply (xs : list R) :
  Forall (fun x => x <= 0) xs -> net_of xs = 0.
Proof.
  induction 1 as [|x xs Hx _ IH]; [reflexivity|].
  rewrite net_of_R_cons, IH. apply gt0_R_false in Hx. rewrite Hx. lra.
Qed.

Lemma py_sum_mono (xs ys : list R) :
  Forall2 Rle xs ys -> py_sum xs <= py_sum ys.
Proof.
  induction 1 as [|x y xs ys Hxy _ IH]; [lra|].
  rewrite !py_sum_R_cons. lra.
Qed.

Lemma net_of_mono (xs ys : list R) :
  Forall2 Rle xs ys -> net_of xs <= net_of ys.
Proof.
  induction 1 as [|x y xs ys Hxy _ IH]; [lra|].
  rewrite !net_of_R_cons.
  destruct (gt0 x) eqn:Ex, (gt0 y) eqn:Ey;
    rewrite ?gt0_R, ?gt0_R_false in *; lra.
Qed.

Lemma Forall2_firstn_keeps (n : nat) (xs ys : list R) :
  Forall2 Rle xs ys -> Forall2 Rle (firstn n xs) (firstn n ys).
Proof.
  intros Hall; revert n; induction Hall; intros [|n]; simpl; auto.
Qed.

Lemma Forall2_skipn_keeps (n : nat) (xs ys : list R) :
  Forall2 Rle xs ys -> Forall2 Rle (skipn n xs) (skipn n ys).
Proof.
  intros Hall; revert n; induction Hall; intros [|n]; simpl; auto.
Qed.

Lemma pulls_mono (capacity capacity' : R) (xs ys : list R) :
  capacity <= capacity' -> Forall2 Rle xs ys ->
  pulls capacity xs = true -> pulls capacity' ys = true.
Proof.
  intros Hc Hall. rewrite !pulls_R. apply py_sum_mono in Hall. lra.
Qed.

(** A feasible split stays feasible when the capacity and the forces
    grow. *)
Lemma feasible_mono (collect_net : bool) (split : list nat) :
  forall (capacity capacity' : R) (cut cut' : list R),
    capacity <= capacity' -> Forall2 Rle cut cut' ->
    feasible collect_net capacity cut split = true ->
    feasible collect_net capacity' cut' split = true.
Proof.
  induction split as [|this_len rest IH];
    intros capacity capacity' cut cut' Hc Hall Hf.
  - apply feasible_nil in Hf. subst cut. inversion Hall.
    now apply feasible_nil.
  - apply feasible_cons in Hf as (Hl & Hp & Hrest).
    apply feasible_cons. rewrite <- (Forall2_length Hall).
    split; [exact Hl|]. split.
    + eapply pulls_mono; eauto using Forall2_firstn_keeps.
    + eapply IH; [| apply Forall2_skipn_keeps; exact Hall | exact Hrest].
      destruct collect_net; [|exact Hc].
      pose proof (net_of_mono _ _ (Forall2_firstn_keeps this_len _ _ Hall)).
      cbn. lra.
Qed.

(** Collecting can only help. *)
Lemma feasible_with_collection (split : list nat) :
  forall (capacity capacity' : R) (cut : list R),
    capacity <= capacity' ->
    feasible false capacity cut split = true ->
    feasible true capacity' cut split = true.
Proof.
  induction split as [|this_len rest IH]; intros capacity capacity' cut Hc Hf.
  - apply feasible_nil in Hf. now apply feasible_nil.
  - apply feasible_cons in Hf as (Hl & Hp & Hrest).
    apply feasible_cons. split; [exact Hl|]. split.
    + rewrite pulls_R in *. lra.
    + eapply IH; [|exact Hrest].
      pose proof (net_of_not_negative (firstn this_len cut)). cbn. lra.
Qed.

(** Where no unit supplies force there is nothing to collect. *)
Lemma feasible_without_collection (split : list nat) :
  forall (capacity capacity' : R) (cut : list R),
    capacity <= capacity' -> Forall (fun x => x <= 0) cut ->
    feasible true capacity cut split = true ->
    feasible false capacity' cut split = true.
Proof.
  induction split as [|this_len rest IH];
    intros capacity capacity' cut Hc Hall Hf.
  - apply feasible_nil in Hf. now apply feasible_nil.
  - apply feasible_cons in Hf as (Hl & Hp & Hrest).
    apply feasible_cons. split; [exact Hl|]. split.
    + rewrite pulls_R in *. lra.
    + eapply IH; [| |exact Hrest].
      * rewrite (net_of_no_supply (firstn this_len cut)).
        -- cbn. lra.
        -- apply Forall_firstn_keeps. exact Hall.
      * apply Forall_skipn_keeps. exact Hall.
Qed.

End RealSplits.

(** ** fastsplit with collection finds a split whenever there is one *)

Section GreedyComplete.

Local Open Scope R_scope.



End GreedyComplete.

(** ** Monotonicity of the orchestrator *)

Section Monotone.

Local Open Scope R_scope.

Lemma forallb_le0_R (xs : list R) :
  forallb le0 xs = true <-> Forall (fun x => x <= 0) xs.
Proof.
  rewrite forallb_forall, Forall_forall.
  split; intros Hall x Hx; apply le0_R, Hall, Hx.
Qed.


Lemma fastsplit_needs_capacity (capacity : R) (cut : list R)
      (collect_net : bool) (r : option (list nat)) :
  fastsplit capacity cut collect_net = Ok r -> gt0 capacity = true.
Proof.
  unfold fastsplit. destruct (gt0 capacity); (reflexivity || discriminate).
Qed.



(** Over the real numbers the starting force per unit of mass grows with
    the grade, up to the grade 1/0.004 = 250.  (The rounded computation
    does not keep this order between neighbouring grades, so no claim
    about [compute_split] is drawn from it.) *)
Lemma grade_factor_mono (steep gentle : R) :
  0 <= gentle <= steep -> steep <= 250 ->
  (gentle + mu) / sqrt (gentle * gentle + 1)
  <= (steep + mu) / sqrt (steep * steep + 1).
Proof.
  intros [Hg Hgs] Hs.
  pose proof (grade_root_positive gentle) as Hrg.
  pose proof (grade_root_positive steep) as Hrs.
  assert (Hsqg : sqrt (gentle * gentle + 1) * sqrt (gentle * gentle + 1)
                 = gentle * gentle + 1) by (apply sqrt_sqrt; nra).
  assert (Hsqs : sqrt (steep * steep + 1) * sqrt (steep * steep + 1)
                 = steep * steep + 1) by (apply sqrt_sqrt; nra).
  set (rg := sqrt (gentle * gentle + 1)) in *.
  set (rs := sqrt (steep * steep + 1)) in *.
  unfold mu in *.
  assert (Hpoly : (gentle + 4 / 1000) * (gentle + 4 / 1000) * (steep * steep + 1)
                  <= (steep + 4 / 1000) * (steep + 4 / 1000)
                     * (gentle * gentle + 1)).
  { assert (Hb : 0 <= (steep + gentle) * (1 - (4 / 1000) * (4 / 1000))
                      + 2 * (4 / 1000)
                      - 2 * (4 / 1000) * steep * gentle).
    { assert (0 <= gentle * (1 - (4 / 1000) * steep)) by nra.
      assert (0 <= steep - gentle) by lra.
      nra. }
    assert (Hprod : 0 <= (steep - gentle)
                         * ((steep + gentle) * (1 - (4 / 1000) * (4 / 1000))
                            + 2 * (4 / 1000)
                            - 2 * (4 / 1000) * steep * gentle)).
    { apply Rmult_le_pos; lra. }
    nra. }
  assert (Hcross : (gentle + 4 / 1000) * rs <= (steep + 4 / 1000) * rg).
  { assert (Hx : 0 <= (gentle + 4 / 1000) * rs) by (apply Rmult_le_pos; lra).
    assert (Hy : 0 <= (steep + 4 / 1000) * rg) by (apply Rmult_le_pos; lra).
    assert (Hsq : ((gentle + 4 / 1000) * rs) * ((gentle + 4 / 1000) * rs)
                  <= ((steep + 4 / 1000) * rg) * ((steep + 4 / 1000) * rg)).
    { replace (((gentle + 4 / 1000) * rs) * ((gentle + 4 / 1000) * rs))
        with ((gentle + 4 / 1000) * (gentle + 4 / 1000) * (rs * rs)) by ring.
      replace (((steep + 4 / 1000) * rg) * ((steep + 4 / 1000) * rg))
        with ((steep + 4 / 1000) * (steep + 4 / 1000) * (rg * rg)) by ring.
      rewrite Hsqg, Hsqs. exact Hpoly. }
    nra. }
  apply (Rmult_le_reg_r (rg * rs)); [nra|].
  replace ((gentle + 4 / 1000) / rg * (rg * rs))
    with ((gentle + 4 / 1000) * rs) by (field; lra).
  replace ((steep + 4 / 1000) / rs * (rg * rs))
    with ((steep + 4 / 1000) * rg) by (field; lra).
  exact Hcross.
Qed.

Lemma net_capacity_mono (x : Calculative)
      (grade grade' max_power max_power' : R) :
  0 <= tractive_effort x -> 0 <= mass x ->
  max_power <= max_power' ->
  0 <= grade' <= grade -> grade <= 250 ->
  net_capacity x grade max_power <= net_capacity x grade' max_power'.
Proof.
  intros HF HM Hmp Hg Hs. unfold net_capacity, force_on_grade.
  pose proof (grade_factor_mono grade grade' Hg Hs) as Hfac.
  pose proof (grade_root_positive grade).
  pose proof (grade_root_positive grade').
  replace (mass x * (grade + mu) / sqrt (grade * grade + 1))
    with (mass x * ((grade + mu) / sqrt (grade * grade + 1)))
    by (field; lra).
  replace (mass x * (grade' + mu) / sqrt (grade' * grade' + 1))
    with (mass x * ((grade' + mu) / sqrt (grade' * grade' + 1)))
    by (field; lra).
  nra.
Qed.

End Monotone.

(** Running the splitters on given real numbers: every test the code
    makes is decided by linear arithmetic. *)
Ltac decide_gt0 :=
  match goal with
  | |- context [gt0 ?e] =>
      let Hb := fresh "Hb" in
      first
        [ assert (Hb : gt0 e = true)
            by (apply gt0_R; unfold py_sum; simpl; lra)
        | assert (Hb : gt0 e = false)
            by (apply gt0_R_false; unfold py_sum; simpl; lra) ];
      rewrite Hb; clear Hb
  end.

Ltac run_fastsplit :=
  unfold fastsplit, fastsplit_loop;
  repeat (cbn [length fastsplit_while fastsplit_for firstn skipn app filter];
          unfold pulls, net_of; decide_gt0).

Section ConcreteGrades.

Local Open Scope R_scope.

(** The starting force where the root is known. *)
Lemma force_on_grade_at (x : Calculative) (grade root : R) :
  0 <= root -> root * root = grade * grade + 1 ->
  force_on_grade x grade = mass x * (grade + mu) / root.
Proof.
  intros Hr Hsq. unfold force_on_grade. rewrite <- Hsq.
  now rewrite sqrt_square.
Qed.

Lemma compute_split_is_dispatch
      (power : Calculative) (cut : Train) (grade max_power : R)
      (collect_net : bool) :
  cut <> [] ->
  compute_split power cut grade max_power collect_net =
  dispatch (net_capacity power grade max_power)
           (map (fun unit => net_capacity (Stock unit) grade max_power) cut)
           collect_net.
Proof.
  intros Hne. rewrite compute_split_unfold by exact Hne.
  unfold dispatch. now rewrite length_map.
Qed.



(** A car of 400 lb, on the level: half the engine's effort is not
    enough, all of it is. *)
Lemma half_power_feasible :
  compute_split (Stock (TractiveCar "engine" 100 60)) [Car "hopper" 400]
                0 (1 / 2) false = Ok (Some [1%nat]).
Proof.
  rewrite compute_split_is_dispatch by discriminate.
  unfold net_capacity. cbn [map].
  rewrite !(force_on_grade_at _ 0 1) by lra.
  cbn [mass tractive_effort stock_mass stock_tractive_effort]. unfold mu.
  set (p := 60 * (1 / 2) - 100 * (0 + 4 / 1000) / 1).
  set (c := 0 * (1 / 2) - 400 * (0 + 4 / 1000) / 1).
  assert (Hp : gt0 p = true) by (apply gt0_R; unfold p; lra).
  assert (Hc : le0 c = true) by (apply le0_R; unfold c; lra).
  assert (Hpc : pulls p [c] = true).
  { apply pulls_R. unfold py_sum, p, c. simpl. lra. }
  unfold dispatch. cbn [forallb]. rewrite Hc. cbn [andb orb].
  unfold fastsplit, fastsplit_loop. rewrite Hp.
  cbn [length fastsplit_while fastsplit_for firstn skipn app]. now rewrite Hpc.
Qed.




End ConcreteGrades.





(** * Further properties *)

(** ** A split and the pieces it cuts *)

Section Materialise.

Context {X : Type}.

Lemma accumulate_is_from (split : list nat) :
  accumulate Nat.add split = accumulate_from Nat.add 0 split.
Proof. destruct split; reflexivity. Qed.

(** The ranges built from the running totals that start at [start]. *)
Lemma slices_from_cons (start this_len : nat) (rest : list nat) :
  map2 pair
       (map2 Nat.sub (accumulate_from Nat.add start (this_len :: rest))
             (this_len :: rest))
       (accumulate_from Nat.add start (this_len :: rest))
  = (start, start + this_len)
      :: map2 pair
           (map2 Nat.sub (accumulate_from Nat.add (start + this_len) rest) rest)
           (accumulate_from Nat.add (start + this_len) rest).
Proof.
  cbn [accumulate_from map2]. cbv zeta.
  replace (start + this_len - this_len) with start by lia. reflexivity.
Qed.

Lemma slices_from_nth (split : list nat) :
  forall (start i : nat) (slice : nat * nat),
    nth_error
      (map2 pair
            (map2 Nat.sub (accumulate_from Nat.add start split) split)
            (accumulate_from Nat.add start split)) i = Some slice ->
    exists this_len,
      nth_error split i = Some this_len /\
      fst slice = start + list_sum (firstn i split) /\
      snd slice = fst slice + this_len.
Proof.
  induction split as [|l rest IH]; intros start i slice Hi.
  - destruct i; discriminate.
  - rewrite slices_from_cons in Hi. destruct i as [|i].
    + injection Hi as <-. exists l. cbn. repeat split; lia.
    + cbn [nth_error] in Hi. apply IH in Hi as (this_len & Hn & Hs & He).
      exists this_len. cbn [nth_error firstn list_sum fold_right].
      repeat split; [exact Hn | | exact He].
      rewrite Hs. unfold list_sum. lia.
Qed.

Lemma slices_from_length (split : list nat) (start : nat) :
  length
    (map2 pair
          (map2 Nat.sub (accumulate_from Nat.add start split) split)
          (accumulate_from Nat.add start split)) = length split.
Proof.
  revert start; induction split as [|l rest IH]; intros start;
    [reflexivity|].
  rewrite slices_from_cons. cbn [length]. now rewrite IH.
Qed.

Lemma getslice_shift (xs : list X) (offset start stop : nat) :
  getslice xs (offset + start, offset + stop)
  = getslice (skipn offset xs) (start, stop).
Proof.
  unfold getslice. cbn [fst snd].
  rewrite firstn_skipn_comm, skipn_skipn. f_equal. lia.
Qed.

(** The pieces of [xs] cut at the ranges that start at [start]. *)
Lemma pieces_from_cons (xs : list X) (this_len : nat) (rest : list nat) :
  forall start,
    map (getslice xs)
        (map2 pair
              (map2 Nat.sub
                    (accumulate_from Nat.add start (this_len :: rest))
                    (this_len :: rest))
              (accumulate_from Nat.add start (this_len :: rest)))
    = firstn this_len (skipn start xs)
        :: map (getslice xs)
             (map2 pair
                   (map2 Nat.sub
                         (accumulate_from Nat.add (start + this_len) rest) rest)
                   (accumulate_from Nat.add (start + this_len) rest)).
Proof.
  intros start. rewrite slices_from_cons. cbn [map]. f_equal.
  unfold getslice. cbn [fst snd]. now rewrite firstn_skipn_comm.
Qed.

Lemma pieces_from_skipn (xs : list X) (split : list nat) :
  forall start,
    map (getslice xs)
        (map2 pair
              (map2 Nat.sub (accumulate_from Nat.add start split) split)
              (accumulate_from Nat.add start split))
    = map (getslice (skipn start xs))
          (map2 pair
                (map2 Nat.sub (accumulate_from Nat.add 0 split) split)
                (accumulate_from Nat.add 0 split)).
Proof.
  revert xs; induction split as [|l rest IH]; intros xs start; [reflexivity|].
  rewrite !pieces_from_cons. cbn [skipn]. f_equal.
  rewrite (IH xs (start + l)), (IH (skipn start xs) (0 + l)), skipn_skipn.
  now replace (0 + l + start) with (start + l) by lia.
Qed.

End Materialise.

Section Pieces.

Context {X : Type}.

(** Cutting at a split: the first piece, then the rest cut the same way. *)
Lemma pieces_cons (xs : list X) (this_len : nat) (rest : list nat) :
  map (getslice xs) (split_to_slices (this_len :: rest))
  = firstn this_len xs
      :: map (getslice (skipn this_len xs)) (split_to_slices rest).
Proof.
  unfold split_to_slices. cbv zeta. rewrite !accumulate_is_from.
  rewrite pieces_from_cons. cbn [skipn Nat.add]. f_equal.
  apply pieces_from_skipn.
Qed.

Lemma firstn_plus (xs : list X) (n m : nat) :
  firstn (n + m) xs = firstn n xs ++ firstn m (skipn n xs).
Proof.
  revert xs; induction n as [|n IH]; intros [|x xs]; cbn;
    try reflexivity.
  - now rewrite firstn_nil.
  - now rewrite IH.
Qed.

Lemma pieces_lengths (split : list nat) :
  forall xs : list X,
    list_sum split <= length xs ->
    map (@length X) (map (getslice xs) (split_to_slices split)) = split.
Proof.
  induction split as [|l rest IH]; intros xs Hsum; [reflexivity|].
  rewrite pieces_cons. cbn [map]. cbn [list_sum fold_right] in Hsum.
  fold (list_sum rest) in Hsum.
  rewrite length_firstn, Nat.min_l by lia. f_equal.
  apply IH. rewrite length_skipn. lia.
Qed.

Lemma pieces_concat (split : list nat) :
  forall xs : list X,
    concat (map (getslice xs) (split_to_slices split))
    = firstn (list_sum split) xs.
Proof.
  induction split as [|l rest IH]; intros xs; [reflexivity|].
  rewrite pieces_cons. cbn [map concat list_sum fold_right].
  fold (list_sum rest). now rewrite IH, firstn_plus.
Qed.

End Pieces.

(** The test of feasibility without collection, piece by piece. *)
Lemma subcuts_pull_pieces {T : Type} `{Number T}
      (capacity : T) (split : list nat) :
  forall cut : list T,
    subcuts_pull false capacity cut split = true <->
    Forall (fun subcut => pulls capacity subcut = true)
           (map (getslice cut) (split_to_slices split)).
Proof.
  induction split as [|l rest IH]; intros cut.
  - cbn. split; [constructor|reflexivity].
  - rewrite pieces_cons. cbn [subcuts_pull].
    rewrite andb_true_iff, IH. split.
    + intros [Hp Hr]. now constructor.
    + intros Hall. inversion Hall; subst. now split.
Qed.

(** X1.  [split_to_slices] gives one range per part, back to back from 0:
    the range of part [i] starts at the sum of the parts before it and
    stops that part's length further. *)
Theorem split_to_slices_back_to_back (split : list nat) :
  length (split_to_slices split) = length split /\
  forall i slice,
    nth_error (split_to_slices split) i = Some slice ->
    exists this_len,
      nth_error split i = Some this_len /\
      fst slice = list_sum (firstn i split) /\
      snd slice = fst slice + this_len.
Proof.
  unfold split_to_slices. cbv zeta. rewrite accumulate_is_from. split.
  - apply slices_from_length.
  - intros i slice Hi. apply slices_from_nth in Hi as (l & Hn & Hs & He).
    exists l. repeat split; [exact Hn | lia | exact He].
Qed.

Lemma split_to_slices_back_to_back_witness :
  exists this_len,
    nth_error [3; 1; 2] 2 = Some this_len /\
    fst (4, 6) = list_sum (firstn 2 [3; 1; 2]) /\
    snd (4, 6) = fst (4, 6) + this_len.
Proof.
  apply (proj2 (split_to_slices_back_to_back [3; 1; 2]) 2 (4, 6)).
  reflexivity.
Defined.

(** X2.  The subcuts of a split that fits the cut have the lengths the
    split lists, in order, and put end to end they give back the units
    the split counts, in their order: the whole cut when the parts add up
    to its length. *)
Theorem split_to_subcuts_partition (cut : Train) (split : list nat) :
  list_sum split <= length cut ->
  map (@length RollingStock) (split_to_subcuts cut split) = split /\
  concat (split_to_subcuts cut split) = firstn (list_sum split) cut /\
  (list_sum split = length cut -> concat (split_to_subcuts cut split) = cut).
Proof.
  intros Hsum. unfold split_to_subcuts.
  split; [now apply pieces_lengths|].
  split; [apply pieces_concat|].
  intros Heq. rewrite pieces_concat, Heq. apply firstn_all.
Qed.

Lemma split_to_subcuts_partition_witness :
  list_sum [2; 1] <= length [Car "a" 1; Car "b" 2; Car "c" 3] /\
  map (@length RollingStock)
      (split_to_subcuts [Car "a" 1; Car "b" 2; Car "c" 3] [2; 1]) = [2; 1].
Proof.
  split; [cbn; lia|].
  apply (split_to_subcuts_partition [Car "a" 1; Car "b" 2; Car "c" 3] [2; 1]).
  cbn; lia.
Defined.

(** ** More on the two splitters *)

Section NothingToCollect.

Context {T : Type} `{NumberLaws T}.

Lemma net_of_nothing (subcut : list T) :
  Forall (fun x : T => gt0 x = false) subcut -> net_of subcut = num_zero.
Proof.
  unfold net_of. induction 1 as [|x xs Hx _ IH]; [reflexivity|].
  cbn [filter]. now rewrite Hx.
Qed.

Lemma fastsplit_while_nothing_to_collect (fuel : nat) :
  forall (capacity : T) (cut : list T) (splits : list nat),
    Forall (fun x : T => gt0 x = false) cut ->
    fastsplit_while fuel capacity cut splits true
    = fastsplit_while fuel capacity cut splits false.
Proof.
  induction fuel as [|fuel IH]; intros capacity cut splits Hall;
    destruct cut as [|x cut]; cbn [fastsplit_while]; try reflexivity.
  destruct (fastsplit_for capacity (x :: cut) (length (x :: cut)))
    as [this_len|]; [|reflexivity].
  rewrite net_of_nothing by (apply Forall_firstn_keeps; exact Hall).
  rewrite num_add_zero_r. apply IH. apply Forall_skipn_keeps. exact Hall.
Qed.

End NothingToCollect.

(** X3.  On a cut none of whose units has a positive force there is
    nothing to collect: [fastsplit] returns the same with [collect_net]
    set and unset. *)
Theorem fastsplit_nothing_to_collect
        (T : Type) `{NumberLaws T} (capacity : T) (cut : list T) :
  Forall (fun x : T => gt0 x = false) cut ->
  fastsplit capacity cut true = fastsplit capacity cut false.
Proof.
  intros Hall. unfold fastsplit, fastsplit_loop.
  destruct (gt0 capacity); [|reflexivity].
  now apply fastsplit_while_nothing_to_collect.
Qed.

Lemma fastsplit_nothing_to_collect_witness :
  fastsplit 10%Z [-3; -3; 0; -3]%Z true = fastsplit 10%Z [-3; -3; 0; -3]%Z false.
Proof.
  apply (fastsplit_nothing_to_collect Z 10%Z [-3; -3; 0; -3]%Z).
  repeat constructor.
Defined.

Section GreedyOptimal.

Local Open Scope R_scope.

(** Moving the end of the first subcut further on costs no part when the
    positive forces passed over are collected. *)
Lemma collect_drop_front_short (split : list nat) :
  forall (passed rest : list R) (capacity capacity' : R),
    feasible true capacity (passed ++ rest) split = true ->
    capacity + net_of passed <= capacity' ->
    exists split', feasible true capacity' rest split' = true /\
                   (length split' <= length split)%nat.
Proof.
  induction split as [|this_len later IH];
    intros passed rest capacity capacity' Hf Hc.
  - apply feasible_nil in Hf. apply app_eq_nil in Hf as [_ ->].
    exists []. split; [now apply feasible_nil | apply le_n].
  - apply feasible_cons in Hf as (Hl & Hp & Hlater).
    rewrite length_app in Hl.
    destruct (Nat.le_gt_cases this_len (length passed)) as [Hle|Hgt].
    + rewrite firstn_app, skipn_app in Hlater.
      replace (this_len - length passed)%nat with 0%nat in Hlater by lia.
      cbn [firstn skipn] in Hlater. rewrite app_nil_r in Hlater.
      apply (IH _ _ _ capacity') in Hlater as (split' & Hf' & Hlen).
      * exists split'. split; [exact Hf' | cbn [length]; lia].
      * rewrite <- (firstn_skipn this_len passed) in Hc at 1.
        rewrite net_of_R_app in Hc. cbn. lra.
    + rewrite firstn_app, firstn_all2 in Hp, Hlater by lia.
      rewrite skipn_app, skipn_all2 in Hlater by lia.
      cbn [app] in Hlater. rewrite net_of_R_app in Hlater.
      exists ((this_len - length passed)%nat :: later).
      split; [|apply le_n].
      apply feasible_cons. split; [lia|]. split.
      * rewrite pulls_R in *. rewrite py_sum_R_app in Hp.
        pose proof (py_sum_le_net_of passed). lra.
      * eapply feasible_mono; [| |exact Hlater].
        -- cbn in *. lra.
        -- clear. induction (skipn (this_len - length passed) rest);
             constructor; [lra|assumption].
Qed.

Lemma fastsplit_loop_fewest (n : nat) :
  forall (capacity : R) (cut : list R) (splits split : list nat),
    length cut = n ->
    feasible true capacity cut split = true ->
    exists found,
      fastsplit_loop capacity cut splits true = Ok (Some (splits ++ found)) /\
      feasible true capacity cut found = true /\
      (length found <= length split)%nat.
Proof.
  induction n as [n IH] using lt_wf_ind;
    intros capacity cut splits split Hn Hf.
  rewrite fastsplit_loop_unfold. destruct cut as [|x cut].
  - exists []. rewrite app_nil_r. split; [reflexivity|].
    split; [now apply feasible_nil | apply Nat.le_0_l].
  - destruct split as [|this_len later];
      [apply feasible_nil in Hf; discriminate|].
    apply feasible_cons in Hf as (Hl & Hp & Hlater).
    destruct (fastsplit_for capacity (x :: cut) (length (x :: cut)))
      as [longest|] eqn:E.
    + apply fastsplit_for_some in E as (Hr & Hpl & Hlongest).
      assert (Hle : (this_len <= longest)%nat).
      { destruct (Nat.le_gt_cases this_len longest) as [Hle|Hgt];
          [exact Hle|].
        rewrite Hlongest in Hp by lia. discriminate. }
      assert (Hlt : (length (skipn longest (x :: cut)) < n)%nat).
      { rewrite length_skipn. lia. }
      rewrite (skipn_split_at this_len longest (x :: cut) Hle) in Hlater.
      apply (collect_drop_front_short _ _ _ _
               (capacity + net_of (firstn longest (x :: cut))))
        in Hlater as (split' & Hf' & Hlen').
      * destruct (IH _ Hlt _ _ (splits ++ [longest]) _ eq_refl Hf')
          as (found & Hloop & Hfound & Hlen).
        exists (longest :: found). rewrite <- app_assoc in Hloop.
        split; [exact Hloop|]. split; [|cbn [length]; lia].
        apply feasible_cons. repeat split; try lia; assumption.
      * rewrite <- (firstn_skipn this_len (firstn longest (x :: cut))) at 2.
        rewrite net_of_R_app, firstn_firstn, Nat.min_l by lia.
        cbn. lra.
    + rewrite fastsplit_for_none in E. rewrite E in Hp by lia. discriminate.
Qed.

End GreedyOptimal.

Section GreedyOptimalExact.

Local Open Scope Z_scope.

Lemma gt0_Z (x : Z) : gt0 x = true <-> 0 < x.
Proof. unfold gt0. cbn. rewrite Z.gtb_lt. reflexivity. Qed.

Lemma pulls_Z (capacity : Z) (subcut : list Z) :
  pulls capacity subcut = true <-> 0 < capacity + py_sum subcut.
Proof. unfold pulls. apply gt0_Z. Qed.

Lemma py_sum_Z_cons (a : Z) (xs : list Z) : py_sum (a :: xs) = a + py_sum xs.
Proof. exact (@py_sum_cons Z Number_Z NumberLaws_Z a xs). Qed.

Lemma py_sum_Z_app (xs ys : list Z) :
  py_sum (xs ++ ys) = py_sum xs + py_sum ys.
Proof. exact (@py_sum_app Z Number_Z NumberLaws_Z xs ys). Qed.

Lemma net_of_Z_cons (x : Z) (xs : list Z) :
  net_of (x :: xs) = (if gt0 x then x else 0) + net_of xs.
Proof.
  unfold net_of. cbn [filter]. destruct (gt0 x).
  - apply py_sum_Z_cons.
  - reflexivity.
Qed.

Lemma net_of_Z_app (xs ys : list Z) :
  net_of (xs ++ ys) = net_of xs + net_of ys.
Proof. unfold net_of. now rewrite filter_app, py_sum_Z_app. Qed.

Lemma net_of_Z_bounds (xs : list Z) : 0 <= net_of xs /\ py_sum xs <= net_of xs.
Proof.
  induction xs as [|x xs [IH1 IH2]]; [split; reflexivity|].
  rewrite net_of_Z_cons, py_sum_Z_cons.
  destruct (gt0 x) eqn:E.
  - apply gt0_Z in E. lia.
  - assert (x <= 0).
    { destruct (Z.lt_ge_cases 0 x) as [Hpos|Hle]; [|lia].
      apply gt0_Z in Hpos. congruence. }
    lia.
Qed.

Lemma feasible_more_capacity (collect_net : bool) (split : list nat) :
  forall (capacity capacity' : Z) (cut : list Z),
    capacity <= capacity' ->
    feasible collect_net capacity cut split = true ->
    feasible collect_net capacity' cut split = true.
Proof.
  induction split as [|this_len rest IH]; intros capacity capacity' cut Hc Hf.
  - apply feasible_nil in Hf. now apply feasible_nil.
  - apply feasible_cons in Hf as (Hl & Hp & Hrest).
    apply feasible_cons. split; [exact Hl|]. split.
    + rewrite pulls_Z in *. lia.
    + eapply IH; [|exact Hrest]. destruct collect_net; [cbn; lia|exact Hc].
Qed.

Lemma feasible_with_collection_exact (split : list nat) :
  forall (capacity capacity' : Z) (cut : list Z),
    capacity <= capacity' ->
    feasible false capacity cut split = true ->
    feasible true capacity' cut split = true.
Proof.
  induction split as [|this_len rest IH]; intros capacity capacity' cut Hc Hf.
  - apply feasible_nil in Hf. now apply feasible_nil.
  - apply feasible_cons in Hf as (Hl & Hp & Hrest).
    apply feasible_cons. split; [exact Hl|]. split.
    + rewrite pulls_Z in *. lia.
    + eapply IH; [|exact Hrest].
      pose proof (net_of_Z_bounds (firstn this_len cut)). cbn. lia.
Qed.

(** Moving the end of the first subcut further on costs no part when the
    positive forces passed over are collected. *)
Lemma collect_drop_front_exact (split : list nat) :
  forall (passed rest : list Z) (capacity capacity' : Z),
    feasible true capacity (passed ++ rest) split = true ->
    capacity + net_of passed <= capacity' ->
    exists split', feasible true capacity' rest split' = true /\
                   (length split' <= length split)%nat.
Proof.
  induction split as [|this_len later IH];
    intros passed rest capacity capacity' Hf Hc.
  - apply feasible_nil in Hf. apply app_eq_nil in Hf as [_ ->].
    exists []. split; [now apply feasible_nil | apply le_n].
  - apply feasible_cons in Hf as (Hl & Hp & Hlater).
    rewrite length_app in Hl.
    destruct (Nat.le_gt_cases this_len (length passed)) as [Hle|Hgt].
    + rewrite firstn_app, skipn_app in Hlater.
      replace (this_len - length passed)%nat with 0%nat in Hlater by lia.
      cbn [firstn skipn] in Hlater. rewrite app_nil_r in Hlater.
      apply (IH _ _ _ capacity') in Hlater as (split' & Hf' & Hlen).
      * exists split'. split; [exact Hf' | cbn [length]; lia].
      * rewrite <- (firstn_skipn this_len passed) in Hc at 1.
        rewrite net_of_Z_app in Hc. cbn. lia.
    + rewrite firstn_app, firstn_all2 in Hp, Hlater by lia.
      rewrite skipn_app, skipn_all2 in Hlater by lia.
      cbn [app] in Hlater. rewrite net_of_Z_app in Hlater.
      exists ((this_len - length passed)%nat :: later).
      split; [|apply le_n].
      apply feasible_cons. split; [lia|]. split.
      * rewrite pulls_Z in *. rewrite py_sum_Z_app in Hp.
        pose proof (net_of_Z_bounds passed). lia.
      * eapply feasible_more_capacity; [|exact Hlater]. cbn in *. lia.
Qed.

Lemma fastsplit_loop_fewest_exact (n : nat) :
  forall (capacity : Z) (cut : list Z) (splits split : list nat),
    length cut = n ->
    feasible true capacity cut split = true ->
    exists found,
      fastsplit_loop capacity cut splits true = Ok (Some (splits ++ found)) /\
      feasible true capacity cut found = true /\
      (length found <= length split)%nat.
Proof.
  induction n as [n IH] using lt_wf_ind;
    intros capacity cut splits split Hn Hf.
  rewrite fastsplit_loop_unfold. destruct cut as [|x cut].
  - exists []. rewrite app_nil_r. split; [reflexivity|].
    split; [now apply feasible_nil | apply Nat.le_0_l].
  - destruct split as [|this_len later];
      [apply feasible_nil in Hf; discriminate|].
    apply feasible_cons in Hf as (Hl & Hp & Hlater).
    destruct (fastsplit_for capacity (x :: cut) (length (x :: cut)))
      as [longest|] eqn:E.
    + apply fastsplit_for_some in E as (Hr & Hpl & Hlongest).
      assert (Hle : (this_len <= longest)%nat).
      { destruct (Nat.le_gt_cases this_len longest) as [Hle|Hgt];
          [exact Hle|].
        rewrite Hlongest in Hp by lia. discriminate. }
      assert (Hlt : (length (skipn longest (x :: cut)) < n)%nat).
      { rewrite length_skipn. lia. }
      rewrite (skipn_split_at this_len longest (x :: cut) Hle) in Hlater.
      apply (collect_drop_front_exact _ _ _ _
               (capacity + net_of (firstn longest (x :: cut))))
        in Hlater as (split' & Hf' & Hlen').
      * destruct (IH _ Hlt _ _ (splits ++ [longest]) _ eq_refl Hf')
          as (found & Hloop & Hfound & Hlen).
        exists (longest :: found). rewrite <- app_assoc in Hloop.
        split; [exact Hloop|]. split; [|cbn [length]; lia].
        apply feasible_cons. repeat split; try lia; assumption.
      * rewrite <- (firstn_skipn this_len (firstn longest (x :: cut))) at 2.
        rewrite net_of_Z_app, firstn_firstn, Nat.min_l by lia.
        cbn. lia.
    + rewrite fastsplit_for_none in E. rewrite E in Hp by lia. discriminate.
Qed.

End GreedyOptimalExact.

(** X4.  On integer capacity and forces, which Python adds exactly,
    [fastsplit] with collection is exact: with a positive capacity,
    whenever some split is feasible under the collection rule, it returns
    a feasible split, and one with no more parts than that split.  (On
    floats rounding can make it miss a split that passes its own tests.) *)
Theorem fastsplit_collecting_fewest_parts
        (capacity : Z) (cut : list Z) (split : list nat) :
  (0 < capacity)%Z ->
  feasible true capacity cut split = true ->
  exists found,
    fastsplit capacity cut true = Ok (Some found) /\
    feasible true capacity cut found = true /\
    length found <= length split.
Proof.
  intros Hcap Hf. apply gt0_Z in Hcap. unfold fastsplit. rewrite Hcap.
  destruct (fastsplit_loop_fewest_exact (length cut) capacity cut [] split
                                        eq_refl Hf) as (found & Hloop & Hfound).
  exists found. now split.
Qed.

Lemma fastsplit_collecting_fewest_parts_witness :
  exists found,
    fastsplit 5%Z [5; -3; -3; -7; 4; -9]%Z true = Ok (Some found) /\
    feasible true 5%Z [5; -3; -3; -7; 4; -9]%Z found = true /\
    length found <= length [1; 2; 1; 2].
Proof.
  apply (fastsplit_collecting_fewest_parts
           5%Z [5; -3; -3; -7; 4; -9]%Z [1; 2; 1; 2]).
  - lia.
  - reflexivity.
Defined.

(** X5.  Collecting never costs a part: over the reals, when [fastsplit]
    without collection returns a split, [fastsplit] with collection
    returns one too, with no more parts. *)
Theorem fastsplit_collection_never_worse
        (capacity : R) (cut : list R) (plain : list nat) :
  fastsplit capacity cut false = Ok (Some plain) ->
  exists collecting,
    fastsplit capacity cut true = Ok (Some collecting) /\
    length collecting <= length plain.
Proof.
  intros Hplain.
  pose proof (fastsplit_needs_capacity _ _ _ _ Hplain) as Hcap.
  unfold fastsplit in Hplain. rewrite Hcap in Hplain.
  apply fastsplit_loop_sound in Hplain as (rest & -> & Hf).
  apply (feasible_with_collection rest capacity capacity cut (Rle_refl _))
    in Hf.
  unfold fastsplit. rewrite Hcap.
  destruct (fastsplit_loop_fewest (length cut) capacity cut [] rest
                                  eq_refl Hf) as (found & Hloop & _ & Hlen).
  exists found. now split.
Qed.

Lemma fastsplit_collection_never_worse_witness :
  exists collecting,
    fastsplit 5%R [3; -4; -4; -2]%R true = Ok (Some collecting) /\
    length collecting <= length [2; 1; 1].
Proof.
  apply (fastsplit_collection_never_worse 5%R [3; -4; -4; -2]%R [2; 1; 1]).
  run_fastsplit. reflexivity.
Defined.

(** At that input collection does change the run: two parts, not
    three. *)
Example fastsplit_collection_saves_a_part :
  fastsplit 5%R [3; -4; -4; -2]%R true = Ok (Some [2; 2]).
Proof. run_fastsplit. reflexivity. Qed.

(** X6.  With a positive capacity and a budget that is not negative,
    [smartsplit] returns [None] exactly when every feasible split of the
    cut has more than [max_parts] parts. *)
Theorem smartsplit_none_iff_over_budget
        (T : Type) `{NumberLaws T}
        (capacity : T) (cut : list T) (max_parts : Z) :
  gt0 capacity = true -> (0 <= max_parts)%Z ->
  smartsplit capacity cut max_parts = Ok None <->
  forall split, feasible false capacity cut split = true ->
                (max_parts < Z.of_nat (length split))%Z.
Proof.
  intros Hcap Hmp.
  pose proof (smartsplit_rec_spec (length cut) capacity Hcap cut max_parts
                                  (le_n _)) as Hspec.
  unfold smartsplit.
  destruct (smartsplit_rec (length cut) capacity cut max_parts)
    as [[best|]| |]; cbn [smartsplit_spec] in Hspec; try contradiction.
  - destruct Hspec as (Hf & Hl & _). split; [discriminate|].
    intros Hall. apply Hall in Hf. lia.
  - split; [intros _; exact Hspec | reflexivity].
Qed.

Lemma smartsplit_none_iff_over_budget_witness :
  smartsplit 10%Z [-9; 10; -19]%Z 1 = Ok None <->
  forall split, feasible false 10%Z [-9; 10; -19]%Z split = true ->
                (1 < Z.of_nat (length split))%Z.
Proof.
  apply (smartsplit_none_iff_over_budget Z 10%Z [-9; 10; -19]%Z 1);
    [reflexivity | lia].
Defined.

(** X7.  The number of parts [smartsplit] returns does not depend on the
    budget: with a positive capacity, once it returns a split within
    [max_parts] it returns a split of as many parts for any larger
    budget. *)
Theorem smartsplit_budget_slack
        (T : Type) `{NumberLaws T}
        (capacity : T) (cut : list T) (max_parts larger : Z)
        (split : list nat) :
  gt0 capacity = true -> (max_parts <= larger)%Z ->
  smartsplit capacity cut max_parts = Ok (Some split) ->
  exists split',
    smartsplit capacity cut larger = Ok (Some split') /\
    length split' = length split.
Proof.
  intros Hcap Hle Hs.
  pose proof (smartsplit_rec_spec (length cut) capacity Hcap cut max_parts
                                  (le_n _)) as Hspec.
  pose proof (smartsplit_rec_spec (length cut) capacity Hcap cut larger
                                  (le_n _)) as Hspec'.
  unfold smartsplit in *. rewrite Hs in Hspec.
  cbn [smartsplit_spec] in Hspec. destruct Hspec as (Hf & Hl & Hmin).
  destruct (smartsplit_rec (length cut) capacity cut larger)
    as [[split'|]| |] eqn:E; cbn [smartsplit_spec] in Hspec';
    try contradiction.
  - destruct Hspec' as (Hf' & _ & Hmin').
    exists split'. split; [reflexivity|].
    apply Nat.le_antisymm; [apply Hmin', Hf | apply Hmin, Hf'].
  - exfalso. apply Hspec' in Hf as Hover.
    destruct split as [|first rest]; [|cbn [length] in *; lia].
    apply feasible_nil in Hf. subst cut.
    cbn [length smartsplit_rec] in E. rewrite Hcap in E. discriminate.
Qed.

Lemma smartsplit_budget_slack_witness :
  exists split',
    smartsplit 10%Z [-9; 10; -19]%Z 7 = Ok (Some split') /\
    length split' = length [1; 2].
Proof.
  apply (smartsplit_budget_slack Z 10%Z [-9; 10; -19]%Z 2 7 [1; 2]);
    [reflexivity | lia | reflexivity].
Defined.

(** ** More on the orchestrator *)

(** X8.  A power that cannot start itself is a failed assertion, not an
    infeasible split: on a non-empty cut, when the net force capacity of
    the power is not positive, [compute_split] raises [AssertionError]. *)
Theorem compute_split_powerless
        (power : Calculative) (cut : Train) (grade max_power : R)
        (collect_net : bool) :
  cut <> [] ->
  (net_capacity power grade max_power <= 0)%R ->
  compute_split power cut grade max_power collect_net = Raise AssertionError.
Proof.
  intros Hne Hp. rewrite compute_split_unfold by exact Hne. cbv zeta.
  apply gt0_R_false in Hp.
  destruct (_ || _).
  - unfold fastsplit. now rewrite Hp.
  - unfold smartsplit.
    destruct (length _); cbn [smartsplit_rec]; now rewrite Hp.
Qed.

Lemma compute_split_powerless_witness :
  compute_split (Stock (Car "dead engine" 100)) [Car "hopper" 400] 0 1 false
  = Raise AssertionError.
Proof.
  apply (compute_split_powerless
           (Stock (Car "dead engine" 100)) [Car "hopper" 400] 0 1 false).
  - discriminate.
  - unfold net_capacity.
    rewrite (force_on_grade_at _ 0 1) by lra.
    cbn [mass tractive_effort stock_mass stock_tractive_effort].
    unfold mu. lra.
Defined.

Section OrchestratorExact.

Local Open Scope R_scope.

Lemma forallb_le0_false (c : list R) :
  forallb le0 c = false -> c <> [].
Proof. destruct c; [discriminate|discriminate]. Qed.

(** [dispatch] returns a split with the fewest parts under the rule the
    caller asked for. *)
Lemma dispatch_fewest (p : R) (c : list R) (collect_net : bool)
      (split : list nat) :
  0 < p ->
  feasible collect_net p c split = true ->
  exists best,
    dispatch p c collect_net = Ok (Some best) /\
    feasible collect_net p c best = true /\
    (length best <= length split)%nat.
Proof.
  intros Hp Hf. assert (Hcap : gt0 p = true) by now apply gt0_R.
  unfold dispatch. destruct collect_net.
  - rewrite orb_true_r. unfold fastsplit. rewrite Hcap.
    destruct (fastsplit_loop_fewest (length c) p c [] split eq_refl Hf)
      as (found & Hloop & Hfound & Hlen).
    exists found. now repeat split.
  - rewrite orb_false_r. destruct (forallb le0 c) eqn:Eall.
    + apply forallb_le0_R in Eall.
      apply (feasible_with_collection split p p c (Rle_refl p)) in Hf.
      unfold fastsplit. rewrite Hcap.
      destruct (fastsplit_loop_fewest (length c) p c [] split eq_refl Hf)
        as (found & Hloop & Hfound & Hlen).
      exists found. repeat split; [exact Hloop | | exact Hlen].
      exact (feasible_without_collection found p p c (Rle_refl p)
                                         Eall Hfound).
    + pose proof (smartsplit_rec_spec (length c) p Hcap c
                    (Z.of_nat (length c)) (le_n _)) as Hspec.
      unfold smartsplit.
      destruct (smartsplit_rec (length c) p c (Z.of_nat (length c)))
        as [[best|]| |]; cbn [smartsplit_spec] in Hspec;
        try contradiction.
      * destruct Hspec as (Hb & _ & Hmin). exists best.
        repeat split; [exact Hb | now apply Hmin].
      * apply Hspec in Hf as Hover. unfold feasible in Hf.
        apply andb_true_iff in Hf as [Hs _].
        apply is_split_length in Hs. lia.
Qed.

(** What [dispatch] returns is feasible under the rule the caller asked
    for. *)
Lemma dispatch_sound (p : R) (c : list R) (collect_net : bool)
      (split : list nat) :
  dispatch p c collect_net = Ok (Some split) ->
  feasible collect_net p c split = true.
Proof.
  unfold dispatch. intros Hd.
  assert (Hsound : forall s,
             fastsplit p c true = Ok (Some s) ->
             feasible true p c s = true).
  { intros s Hs. unfold fastsplit in Hs.
    destruct (gt0 p); [|discriminate].
    apply fastsplit_loop_sound in Hs as (rest & -> & Hf). exact Hf. }
  destruct collect_net.
  - rewrite orb_true_r in Hd. now apply Hsound.
  - rewrite orb_false_r in Hd. destruct (forallb le0 c) eqn:Eall.
    + apply forallb_le0_R in Eall. apply Hsound in Hd.
      exact (feasible_without_collection split p p c (Rle_refl p) Eall Hd).
    + now apply smartsplit_rec_sound in Hd.
Qed.

End OrchestratorExact.

(** X9.  Without [collect_net], [compute_split] is exact.  For a
    non-empty cut and a power with a positive net force capacity,
    whenever some split of the members' forces is feasible without
    collection, a split comes back that is feasible without collection
    and has no more parts; this although [fastsplit] is run with
    collection on when no member has a positive force. *)
Theorem compute_split_fewest_parts
        (power : Calculative) (cut : Train) (grade max_power : R)
        (split : list nat) :
  let p := net_capacity power grade max_power in
  let c := map (fun unit => net_capacity (Stock unit) grade max_power) cut in
  cut <> [] -> (0 < p)%R ->
  feasible false p c split = true ->
  exists best,
    compute_split power cut grade max_power false = Ok (Some best) /\
    feasible false p c best = true /\
    length best <= length split.
Proof.
  intros p c Hne Hp Hf.
  rewrite compute_split_is_dispatch by exact Hne.
  now apply dispatch_fewest.
Qed.

(** X10.  Whatever split [compute_split] returns is feasible under the
    rule the caller asked for: it is a split of the cut, and without
    [collect_net] every subcut can be pulled by the power alone. *)
Theorem compute_split_sound
        (power : Calculative) (cut : Train) (grade max_power : R)
        (collect_net : bool) (split : list nat) :
  compute_split power cut grade max_power collect_net = Ok (Some split) ->
  feasible collect_net
           (net_capacity power grade max_power)
           (map (fun unit => net_capacity (Stock unit) grade max_power) cut)
           split = true /\
  list_sum split = length cut.
Proof.
  intros Hs.
  assert (Hne : cut <> []).
  { intros ->. unfold compute_split in Hs. cbv zeta in Hs.
    rewrite net_force_capacity_value in Hs. discriminate. }
  rewrite compute_split_is_dispatch in Hs by exact Hne.
  apply dispatch_sound in Hs. split; [exact Hs|].
  unfold feasible in Hs. apply andb_true_iff in Hs as [Hsp _].
  apply is_split_sum in Hsp as [_ Hsum]. now rewrite length_map in Hsum.
Qed.

Lemma compute_split_sound_witness :
  feasible false
           (net_capacity (Stock (TractiveCar "engine" 100 60)) 0 (1 / 2))
           (map (fun unit => net_capacity (Stock unit) 0 (1 / 2))
                [Car "hopper" 400])
           [1] = true /\
  list_sum [1] = length [Car "hopper" 400].
Proof.
  apply (compute_split_sound
           (Stock (TractiveCar "engine" 100 60)) [Car "hopper" 400]
           0 (1 / 2) false [1]).
  exact half_power_feasible.
Defined.

(** Three units, the middle one a helper engine, at half power on the
    level: taking them one at a time is feasible without collection. *)
Lemma helper_one_by_one_feasible :
  feasible false
           (net_capacity (Stock (TractiveCar "engine" 100 60)) 0 (1 / 2))
           (map (fun unit => net_capacity (Stock unit) 0 (1 / 2))
                [Car "ore" 5000; TractiveCar "helper" 1000 30;
                 Car "hopper" 5000])
           [1; 1; 1] = true.
Proof.
  unfold net_capacity. cbn [map].
  rewrite !(force_on_grade_at _ 0 1) by lra.
  cbn [mass tractive_effort stock_mass stock_tractive_effort]. unfold mu.
  unfold feasible, is_split.
  cbn [forallb list_sum fold_right length Nat.ltb Nat.leb Nat.eqb Nat.add
       andb subcuts_pull firstn skipn].
  unfold pulls. repeat decide_gt0. reflexivity.
Qed.

Lemma compute_split_fewest_parts_witness :
  exists best,
    compute_split (Stock (TractiveCar "engine" 100 60))
                  [Car "ore" 5000; TractiveCar "helper" 1000 30;
                   Car "hopper" 5000]
                  0 (1 / 2) false = Ok (Some best) /\
    feasible false
             (net_capacity (Stock (TractiveCar "engine" 100 60)) 0 (1 / 2))
             (map (fun unit => net_capacity (Stock unit) 0 (1 / 2))
                  [Car "ore" 5000; TractiveCar "helper" 1000 30;
                   Car "hopper" 5000])
             best = true /\
    length best <= length [1; 1; 1].
Proof.
  apply (compute_split_fewest_parts
           (Stock (TractiveCar "engine" 100 60))
           [Car "ore" 5000; TractiveCar "helper" 1000 30; Car "hopper" 5000]
           0 (1 / 2) [1; 1; 1]).
  - discriminate.
  - unfold net_capacity. rewrite (force_on_grade_at _ 0 1) by lra.
    cbn [mass tractive_effort stock_mass stock_tractive_effort].
    unfold mu. lra.
  - exact helper_one_by_one_feasible.
Defined.

(** ** Forces add up along a train *)

Section Additive.

Local Open Scope R_scope.

Lemma train_mass_cons (unit : RollingStock) (t : Train) :
  train_mass (unit :: t) = stock_mass unit + train_mass t.
Proof. unfold train_mass. cbn [map]. apply py_sum_R_cons. Qed.

Lemma train_tractive_effort_cons (unit : RollingStock) (t : Train) :
  train_tractive_effort (unit :: t)
  = stock_tractive_effort unit + train_tractive_effort t.
Proof. unfold train_tractive_effort. cbn [map]. apply py_sum_R_cons. Qed.

Lemma net_capacity_sum (t : Train) (grade max_power : R) :
  net_capacity (Consist t) grade max_power
  = py_sum (map (fun unit => net_capacity (Stock unit) grade max_power) t).
Proof.
  pose proof (grade_root_positive grade) as Hroot.
  induction t as [|unit t IH].
  - unfold net_capacity, force_on_grade. cbn [mass tractive_effort map].
    unfold train_mass, train_tractive_effort, py_sum. cbn. field. lra.
  - cbn [map]. rewrite py_sum_R_cons, <- IH.
    unfold net_capacity, force_on_grade. cbn [mass tractive_effort].
    rewrite train_mass_cons, train_tractive_effort_cons. field. lra.
Qed.

Lemma net_capacity_as_train (x : Calculative) (grade max_power : R) :
  net_capacity (Consist (as_train x)) grade max_power
  = net_capacity x grade max_power.
Proof.
  unfold net_capacity, force_on_grade. cbn [mass tractive_effort].
  now rewrite as_train_mass, as_train_tractive_effort.
Qed.

Lemma net_capacity_app (a b : Train) (grade max_power : R) :
  net_capacity (Consist (a ++ b)) grade max_power
  = net_capacity (Consist a) grade max_power
    + net_capacity (Consist b) grade max_power.
Proof. now rewrite !net_capacity_sum, map_app, py_sum_R_app. Qed.

Lemma getslice_map {X Y : Type} (f : X -> Y) (xs : list X)
      (slice : nat * nat) :
  getslice (map f xs) slice = map f (getslice xs slice).
Proof. unfold getslice. now rewrite firstn_map, skipn_map. Qed.

End Additive.

(** X11.  The net force capacity of a train is the sum of the net force
    capacities of its members, so that of two entities coupled is the sum
    of theirs: the sums the splitters take of the members' forces are the
    net force capacities of the trains they stand for. *)
Theorem net_force_capacity_adds_up
        (t : Train) (a b : Calculative) (grade max_power : R) :
  net_force_capacity (Consist t) grade max_power
  = Ok (py_sum (map (fun unit => net_capacity (Stock unit) grade max_power) t))
  /\
  net_force_capacity (Consist (py_add a b)) grade max_power
  = Ok (net_capacity a grade max_power + net_capacity b grade max_power)%R.
Proof.
  rewrite !net_force_capacity_value. split.
  - now rewrite net_capacity_sum.
  - f_equal.
    replace (py_add a b) with (as_train a ++ as_train b)
      by (destruct a, b; reflexivity).
    now rewrite net_capacity_app, !net_capacity_as_train.
Qed.

(** ** More on the force model *)

Section Inverses.

Local Open Scope R_scope.

Lemma spare_capacity_value (x : Calculative) (grade : R) :
  grade + mu <> 0 ->
  spare_capacity x grade
  = Ok (tractive_effort x * sqrt (grade * grade + 1) / (grade + mu) - mass x).
Proof.
  intros Hg. unfold spare_capacity. rewrite math_sqrt_grade. cbn [bind].
  now rewrite py_truediv_ok.
Qed.

Lemma spare_capacity_on_balance (x : Calculative) (grade : R) :
  grade + mu = 0 -> spare_capacity x grade = Raise ZeroDivisionError.
Proof.
  intros Hg. unfold spare_capacity. rewrite math_sqrt_grade. cbn [bind].
  now rewrite py_truediv_zero.
Qed.

(** The root the maximum grade is computed from, and the grade itself. *)
Lemma maximum_grade_value (x : Calculative) :
  0 < tractive_effort x < mass x ->
  maximum_grade x
  = Ok ((mass x ^ 2 * mu
         - tractive_effort x
           * sqrt (mass x ^ 2 * (mu ^ 2 + 1) - tractive_effort x ^ 2))
        / (tractive_effort x ^ 2 - mass x ^ 2)).
Proof.
  intros [HF HFM]. unfold maximum_grade, math_sqrt. cbv zeta.
  destruct (Rlt_dec (mass x ^ 2 * (mu ^ 2 + 1) - tractive_effort x ^ 2) 0)
    as [Hneg|_].
  - exfalso. unfold mu in Hneg. nra.
  - cbn [bind]. apply py_truediv_ok. nra.
Qed.

Lemma maximum_grade_balances (F M r : R) :
  0 < F < M -> 0 <= r -> r * r = M ^ 2 * (mu ^ 2 + 1) - F ^ 2 ->
  let alpha := (M ^ 2 * mu - F * r) / (F ^ 2 - M ^ 2) in
  M * (alpha + mu) / sqrt (alpha * alpha + 1) = F.
Proof.
  intros [HF HFM] Hr Hrr alpha.
  assert (Hden : F ^ 2 - M ^ 2 <> 0) by nra.
  assert (Hmu : 0 < mu) by (unfold mu; lra).
  assert (Hrmu : mu * F < r).
  { assert (Hsq : (mu * F) * (mu * F) < r * r) by (rewrite Hrr; nra).
    destruct (Rlt_dec (mu * F) r) as [Hlt|Hge]; [exact Hlt|].
    exfalso. assert (0 <= mu * F) by nra. nra. }
  assert (Halpha : alpha + mu = F * (r - mu * F) / (M ^ 2 - F ^ 2)).
  { unfold alpha. field. nra. }
  assert (Hpos : 0 < alpha + mu).
  { rewrite Halpha. apply Rdiv_lt_0_compat; nra. }
  assert (Hroot : sqrt (alpha * alpha + 1) = M * (alpha + mu) / F).
  { apply sqrt_lem_1.
    - nra.
    - apply Rmult_le_pos; [nra|]. apply Rlt_le, Rinv_0_lt_compat. lra.
    - rewrite Halpha. unfold alpha.
      apply (Rmult_eq_reg_r ((F ^ 2 - M ^ 2) ^ 2 * F ^ 2));
        [|apply Rmult_integral_contrapositive; split;
          apply pow_nonzero; lra].
      field_simplify; [|nra|nra].
      replace (r ^ 2) with (M ^ 2 * (mu ^ 2 + 1) - F ^ 2) by (rewrite <- Hrr; ring).
      field. nra. }
  rewrite Hroot. field. split; [lra|nra].
Qed.

End Inverses.

(** X13.  The spare capacity is the mass that uses up the tractive
    effort: where [grade + 0.004] is not zero, [spare_capacity] returns a
    mass such that the train with one more car of that mass needs exactly
    its tractive effort to start on the grade; on the grade -0.004 it
    raises [ZeroDivisionError]. *)
Theorem spare_capacity_uses_up_effort
        (x : Calculative) (grade : R) (name : string) :
  ((grade + mu)%R <> 0%R ->
   exists spare,
     spare_capacity x grade = Ok spare /\
     starting_force (Consist (py_add x (Stock (Car name spare)))) grade
     = Ok (tractive_effort x)) /\
  ((grade + mu)%R = 0%R ->
   spare_capacity x grade = Raise ZeroDivisionError).
Proof.
  split; [|apply spare_capacity_on_balance].
  intros Hg. rewrite spare_capacity_value by exact Hg.
  eexists. split; [reflexivity|].
  rewrite starting_force_value. f_equal.
  pose proof (grade_root_positive grade) as Hroot.
  unfold force_on_grade. cbn [mass].
  replace (py_add x (Stock (Car name
             (tractive_effort x * sqrt (grade * grade + 1) / (grade + mu)
              - mass x)%R)))
    with (as_train x
          ++ [Car name
                  (tractive_effort x * sqrt (grade * grade + 1) / (grade + mu)
                   - mass x)%R])
    by (destruct x; reflexivity).
  rewrite train_mass_app, as_train_mass, train_mass_cons.
  cbn [stock_mass]. unfold train_mass at 1, py_sum at 1. cbn [map fold_left].
  change (@num_zero R Number_R) with 0%R. field. split; lra.
Qed.

Lemma spare_capacity_uses_up_effort_witness :
  exists spare,
    spare_capacity (Stock (TractiveCar "engine" 100 60)) 0 = Ok spare /\
    starting_force
      (Consist (py_add (Stock (TractiveCar "engine" 100 60))
                       (Stock (Car "load" spare)))) 0
    = Ok (tractive_effort (Stock (TractiveCar "engine" 100 60))).
Proof.
  apply (proj1 (spare_capacity_uses_up_effort
                  (Stock (TractiveCar "engine" 100 60)) 0 "load")).
  unfold mu. lra.
Defined.

(** X14.  For an entity whose tractive effort is positive and below its
    mass, [maximum_grade] returns the grade on which starting takes all
    of the tractive effort: there the starting force is the tractive
    effort and the starting power is 1. *)
Theorem maximum_grade_takes_all_effort (x : Calculative) :
  (0 < tractive_effort x < mass x)%R ->
  exists steepest,
    maximum_grade x = Ok steepest /\
    starting_force x steepest = Ok (tractive_effort x) /\
    starting_power x steepest = Ok 1%R.
Proof.
  intros HFM. rewrite (maximum_grade_value x HFM). eexists.
  split; [reflexivity|].
  assert (Hforce :
            force_on_grade x
              ((mass x ^ 2 * mu
                - tractive_effort x
                  * sqrt (mass x ^ 2 * (mu ^ 2 + 1) - tractive_effort x ^ 2))
               / (tractive_effort x ^ 2 - mass x ^ 2))%R
            = tractive_effort x).
  { unfold force_on_grade.
    apply (maximum_grade_balances
             (tractive_effort x) (mass x)
             (sqrt (mass x ^ 2 * (mu ^ 2 + 1) - tractive_effort x ^ 2))
             HFM).
    - apply sqrt_pos.
    - apply sqrt_sqrt. unfold mu. nra. }
  split.
  - now rewrite starting_force_value, Hforce.
  - unfold starting_power. rewrite starting_force_value, Hforce. cbn [bind].
    rewrite py_truediv_ok by lra. f_equal. field. lra.
Qed.

Lemma maximum_grade_takes_all_effort_witness :
  exists steepest,
    maximum_grade (Stock (TractiveCar "engine" 100 60)) = Ok steepest /\
    starting_force (Stock (TractiveCar "engine" 100 60)) steepest
    = Ok (tractive_effort (Stock (TractiveCar "engine" 100 60))) /\
    starting_power (Stock (TractiveCar "engine" 100 60)) steepest = Ok 1%R.
Proof.
  apply (maximum_grade_takes_all_effort (Stock (TractiveCar "engine" 100 60))).
  cbn. lra.
Defined.

(** ** Coupling, repeating and flattening trains *)

Section Coupling.

Local Open Scope R_scope.

Lemma py_add_app (a b : Calculative) :
  py_add a b = as_train a ++ as_train b.
Proof. destruct a, b; reflexivity. Qed.

Lemma py_mul_repeat (x : Calculative) (n : Z) :
  py_mul x n = concat (repeat (as_train x) (Z.to_nat n)).
Proof. destruct x; reflexivity. Qed.

Lemma train_mass_nil : train_mass [] = 0.
Proof. reflexivity. Qed.

Lemma train_tractive_effort_nil : train_tractive_effort [] = 0.
Proof. reflexivity. Qed.

(** A measure that adds up along a train, on [k] copies of a train. *)
Lemma repeated_aggregate (measure : Train -> R) (t : Train) (k : nat) :
  (forall a b, measure (a ++ b) = measure a + measure b) ->
  measure [] = 0 ->
  measure (concat (repeat t k)) = INR k * measure t.
Proof.
  intros Happ Hnil. induction k as [|k IH].
  - cbn [repeat concat]. rewrite Hnil. cbn. lra.
  - cbn [repeat concat]. rewrite Happ, IH, S_INR. lra.
Qed.

Lemma flat_iter_app (a b : Train) :
  flat_iter (a ++ b) = flat_iter a ++ flat_iter b.
Proof. unfold flat_iter. apply flat_map_app. Qed.

Lemma flat_iter_mass (t : Train) : train_mass (flat_iter t) = train_mass t.
Proof.
  induction t as [|unit t IH]; [reflexivity|].
  change (flat_iter (unit :: t))
    with (match unit with CarGroup _ train => train | _ => [unit] end
          ++ flat_iter t).
  rewrite train_mass_app, IH, train_mass_cons. f_equal.
  destruct unit;
    try (rewrite train_mass_cons, train_mass_nil; cbn [stock_mass]; lra).
  reflexivity.
Qed.

Lemma flat_iter_tractive_effort (t : Train) :
  train_tractive_effort (flat_iter t) = train_tractive_effort t.
Proof.
  induction t as [|unit t IH]; [reflexivity|].
  change (flat_iter (unit :: t))
    with (match unit with CarGroup _ train => train | _ => [unit] end
          ++ flat_iter t).
  rewrite train_tractive_effort_app, IH, train_tractive_effort_cons. f_equal.
  destruct unit;
    try (rewrite train_tractive_effort_cons, train_tractive_effort_nil;
         cbn [stock_tractive_effort]; lra).
  reflexivity.
Qed.

End Coupling.

(** X15.  Coupling with [+] puts the units of the left operand before
    those of the right one, whichever of them is a single piece of
    rolling stock or a train; so the length, the mass and the tractive
    effort of the result are the sums of those of the operands, and
    coupling is associative. *)
Theorem py_add_couples (a b c : Calculative) :
  py_add a b = as_train a ++ as_train b /\
  length (py_add a b) = length (as_train a) + length (as_train b) /\
  train_mass (py_add a b) = (mass a + mass b)%R /\
  train_tractive_effort (py_add a b)
  = (tractive_effort a + tractive_effort b)%R /\
  py_add (Consist (py_add a b)) c = py_add a (Consist (py_add b c)).
Proof.
  rewrite !py_add_app. cbn [as_train].
  repeat split.
  - apply length_app.
  - now rewrite train_mass_app, !as_train_mass.
  - now rewrite train_tractive_effort_app, !as_train_tractive_effort.
  - now rewrite app_assoc.
Qed.

(** X16.  Repeating with [*] gives [n] copies of the units in order and
    the empty train when [n] is not positive; the mass and the tractive
    effort of the result are [n] times those of the operand, and one more
    copy is the operand coupled to the copies there were. *)
Theorem py_mul_repeats (x : Calculative) (n : Z) :
  ((n <= 0)%Z -> py_mul x n = []) /\
  length (py_mul x n) = Z.to_nat n * length (as_train x) /\
  train_mass (py_mul x n) = (INR (Z.to_nat n) * mass x)%R /\
  train_tractive_effort (py_mul x n)
  = (INR (Z.to_nat n) * tractive_effort x)%R /\
  ((0 <= n)%Z -> py_mul x (n + 1) = py_add x (Consist (py_mul x n))).
Proof.
  rewrite !py_mul_repeat. repeat split.
  - intros Hn. replace (Z.to_nat n) with 0 by lia. reflexivity.
  - induction (Z.to_nat n) as [|k IH]; [reflexivity|].
    cbn [repeat concat]. rewrite length_app, IH. lia.
  - rewrite <- as_train_mass.
    apply repeated_aggregate; [apply train_mass_app | reflexivity].
  - rewrite <- as_train_tractive_effort.
    apply repeated_aggregate;
      [apply train_tractive_effort_app | reflexivity].
  - intros Hn. rewrite py_add_app. cbn [as_train].
    replace (Z.to_nat (n + 1)) with (S (Z.to_nat n)) by lia. reflexivity.
Qed.

Lemma py_mul_repeats_witness :
  py_mul (Stock (Car "boxcar" 1000)) (2 + 1)
  = py_add (Stock (Car "boxcar" 1000))
           (Consist (py_mul (Stock (Car "boxcar" 1000)) 2)).
Proof.
  apply (py_mul_repeats (Stock (Car "boxcar" 1000)) 2). lia.
Defined.

(** X17.  [flat_iter] replaces every car group by the members of its
    train and keeps the other units, in order; it leaves a train without
    groups as it is, goes through coupling, and changes neither the mass
    nor the tractive effort of the train. *)
Theorem flat_iter_keeps_aggregates (t other : Train) :
  train_mass (flat_iter t) = train_mass t /\
  train_tractive_effort (flat_iter t) = train_tractive_effort t /\
  flat_iter (t ++ other) = flat_iter t ++ flat_iter other /\
  (Forall (fun unit => match unit with
                       | CarGroup _ _ => False
                       | _ => True
                       end) t ->
   flat_iter t = t) /\
  forall name, flat_iter [CarGroup name t] = t.
Proof.
  split; [apply flat_iter_mass|].
  split; [apply flat_iter_tractive_effort|].
  split; [apply flat_iter_app|]. split.
  - induction 1 as [|unit rest Hunit _ IH]; [reflexivity|].
    change (flat_iter (unit :: rest))
      with (match unit with CarGroup _ train => train | _ => [unit] end
            ++ flat_iter rest).
    rewrite IH. destruct unit; [reflexivity|reflexivity|contradiction].
  - intros name. unfold flat_iter. cbn [flat_map]. apply app_nil_r.
Qed.

Lemma flat_iter_keeps_aggregates_witness :
  flat_iter [TractiveCar "engine" 100 60; Car "hopper" 400]
  = [TractiveCar "engine" 100 60; Car "hopper" 400].
Proof.
  apply (flat_iter_keeps_aggregates
           [TractiveCar "engine" 100 60; Car "hopper" 400] []).
  repeat constructor.
Defined.

(** ** One unit at a time *)

Section OneByOne.

Local Open Scope R_scope.

(** The split that takes the units one at a time. *)
Lemma one_by_one_feasible (capacity : R) (cut : list R) :
  Forall (fun x => 0 < capacity + x) cut ->
  feasible false capacity cut (repeat 1%nat (length cut)) = true.
Proof.
  induction 1 as [|x cut Hx _ IH]; [reflexivity|].
  cbn [length repeat]. apply feasible_cons.
  split; [cbn [length]; lia|]. split.
  - apply pulls_R. cbn [firstn]. rewrite py_sum_R_cons.
    unfold py_sum; cbn. lra.
  - exact IH.
Qed.

Lemma py_sum_not_above_member (xs : list R) (x : R) :
  Forall (fun y => y <= 0) xs -> In x xs -> py_sum xs <= x.
Proof.
  induction 1 as [|y ys Hy Hall IH]; intros Hin; [contradiction|].
  rewrite py_sum_R_cons. destruct Hin as [->|Hin].
  - assert (py_sum ys <= 0).
    { clear - Hall. induction Hall as [|z zs Hz _ IHz];
        [unfold py_sum; cbn; lra|].
      rewrite py_sum_R_cons. lra. }
    lra.
  - specialize (IH Hin). lra.
Qed.

(** In a split that is feasible without collection of a cut without
    positive forces, each unit could be pulled alone. *)
Lemma feasible_dead_weight (capacity : R) (split : list nat) :
  forall cut : list R,
    Forall (fun x => x <= 0) cut ->
    feasible false capacity cut split = true ->
    Forall (fun x => 0 < capacity + x) cut.
Proof.
  induction split as [|l rest IH]; intros cut Hall Hf.
  - apply feasible_nil in Hf. subst. constructor.
  - apply feasible_cons in Hf as (_ & Hp & Hrest).
    rewrite <- (firstn_skipn l cut). apply Forall_app. split.
    + apply pulls_R in Hp. apply Forall_forall. intros x Hin.
      pose proof (py_sum_not_above_member (firstn l cut) x
                    (Forall_firstn_keeps _ l cut Hall) Hin).
      lra.
    + apply IH; [apply Forall_skipn_keeps; exact Hall | exact Hrest].
Qed.

End OneByOne.

(** X18.  When every unit of a non-empty cut could be pulled alone by a
    power of positive net force capacity, [compute_split] returns a
    split, with or without [collect_net], and one of no more parts than
    the cut has units. *)
Theorem compute_split_one_by_one
        (power : Calculative) (cut : Train) (grade max_power : R)
        (collect_net : bool) :
  cut <> [] ->
  (0 < net_capacity power grade max_power)%R ->
  Forall (fun unit =>
            (0 < net_capacity power grade max_power
                 + net_capacity (Stock unit) grade max_power)%R) cut ->
  exists split,
    compute_split power cut grade max_power collect_net = Ok (Some split) /\
    length split <= length cut.
Proof.
  intros Hne Hp Hall.
  rewrite compute_split_is_dispatch by exact Hne.
  set (p := net_capacity power grade max_power) in *.
  set (c := map (fun unit => net_capacity (Stock unit) grade max_power) cut).
  assert (Hones : feasible false p c (repeat 1 (length c)) = true).
  { apply one_by_one_feasible. unfold c. rewrite Forall_map. exact Hall. }
  assert (Hf : feasible collect_net p c (repeat 1 (length c)) = true).
  { destruct collect_net; [|exact Hones].
    exact (feasible_with_collection _ p p c (Rle_refl p) Hones). }
  destruct (dispatch_fewest p c collect_net _ Hp Hf)
    as (best & Hd & _ & Hlen).
  exists best. split; [exact Hd|].
  rewrite repeat_length in Hlen. unfold c in Hlen.
  now rewrite length_map in Hlen.
Qed.

Lemma compute_split_one_by_one_witness :
  exists split,
    compute_split (Stock (TractiveCar "engine" 100 60)) [Car "hopper" 400]
                  0 1 true = Ok (Some split) /\
    length split <= length [Car "hopper" 400].
Proof.
  apply (compute_split_one_by_one
           (Stock (TractiveCar "engine" 100 60)) [Car "hopper" 400] 0 1 true).
  - discriminate.
  - unfold net_capacity. rewrite (force_on_grade_at _ 0 1) by lra.
    cbn [mass tractive_effort stock_mass stock_tractive_effort].
    unfold mu. lra.
  - constructor; [|constructor]. unfold net_capacity.
    rewrite !(force_on_grade_at _ 0 1) by lra.
    cbn [mass tractive_effort stock_mass stock_tractive_effort].
    unfold mu. lra.
Defined.

(** X19.  On a cut without positive forces, and with a positive
    capacity, [fastsplit] finds a split exactly when each unit could be
    pulled alone, with [collect_net] set or not. *)
Theorem fastsplit_dead_weight
        (capacity : R) (cut : list R) (collect_net : bool) :
  (0 < capacity)%R ->
  Forall (fun x => (x <= 0)%R) cut ->
  (exists split, fastsplit capacity cut collect_net = Ok (Some split)) <->
  Forall (fun x => (0 < capacity + x)%R) cut.
Proof.
  intros Hcap Hall.
  assert (Hsame : fastsplit capacity cut collect_net
                  = fastsplit capacity cut true).
  { destruct collect_net; [reflexivity|]. symmetry.
    unfold fastsplit, fastsplit_loop. destruct (gt0 capacity); [|reflexivity].
    apply fastsplit_while_nothing_to_collect.
    eapply Forall_impl; [|exact Hall]. intros x Hx. now apply gt0_R_false. }
  rewrite Hsame. split.
  - intros (split & Hs). unfold fastsplit in Hs.
    destruct (gt0 capacity); [|discriminate].
    apply fastsplit_loop_sound in Hs as (rest & _ & Hf).
    apply (feasible_without_collection rest capacity capacity cut
             (Rle_refl _) Hall) in Hf.
    exact (feasible_dead_weight capacity rest cut Hall Hf).
  - intros Hones. apply one_by_one_feasible in Hones.
    apply (feasible_with_collection _ capacity capacity cut (Rle_refl _))
      in Hones.
    destruct (fastsplit_loop_fewest (length cut) capacity cut [] _
                                    eq_refl Hones) as (found & Hloop & _).
    exists found. unfold fastsplit.
    now rewrite (proj2 (gt0_R capacity) Hcap).
Qed.

Lemma fastsplit_dead_weight_witness :
  (exists split, fastsplit 10%R [-3; -11]%R false = Ok (Some split)) <->
  Forall (fun x => (0 < 10 + x)%R) [-3; -11]%R.
Proof.
  apply (fastsplit_dead_weight 10%R [-3; -11]%R false).
  - lra.
  - repeat constructor; lra.
Defined.

(** X20.  On integer capacity and forces, which Python adds exactly,
    [fastsplit] with collection never needs more parts than [smartsplit],
    which does not collect: when [smartsplit] returns a split,
    [fastsplit] with [collect_net] returns one with no more parts.  (On
    floats rounding can make the greedy pass fail where [smartsplit]
    succeeds.) *)
Theorem fastsplit_collecting_beats_smartsplit
        (capacity : Z) (cut : list Z) (max_parts : Z) (exact : list nat) :
  smartsplit capacity cut max_parts = Ok (Some exact) ->
  exists greedy,
    fastsplit capacity cut true = Ok (Some greedy) /\
    length greedy <= length exact.
Proof.
  intros Hs.
  assert (Hcap : gt0 capacity = true).
  { unfold smartsplit in Hs. destruct (length cut); cbn [smartsplit_rec] in Hs;
      destruct (gt0 capacity); (reflexivity || discriminate). }
  apply smartsplit_rec_sound in Hs.
  apply (feasible_with_collection_exact exact capacity capacity cut
                                        (Z.le_refl _)) in Hs.
  destruct (fastsplit_loop_fewest_exact (length cut) capacity cut [] exact
                                        eq_refl Hs)
    as (found & Hloop & _ & Hlen).
  exists found. unfold fastsplit. rewrite Hcap. now split.
Qed.

Lemma fastsplit_collecting_beats_smartsplit_witness :
  exists greedy,
    fastsplit 10%Z [-9; 10; -19]%Z true = Ok (Some greedy) /\
    length greedy <= length [1; 2].
Proof.
  apply (fastsplit_collecting_beats_smartsplit 10%Z [-9; 10; -19]%Z 3 [1; 2]).
  reflexivity.
Defined.
